(** * DeepConnect: the Connect4 game engine of [env.py]

    A shallow embedding of class [Connect4] (the game engine) and the
    properties of its operations [make_move], [get_valid_moves],
    [check_win] and [reset].

    Modelling choices.
    - A numpy 2-D array is a list of rows, [list (list Z)].  The cells of
      the grid are float64 in the source; the model computes with exact
      integers.  It is exact for the marks and player ids that a float64
      holds exactly ([exact_id]: magnitude at most 2^53) and for indices
      of machine size ([machine_index]).  Beyond that the source rounds a
      mark or raises [OverflowError], which the model does not describe:
      every property that lets a player id or a column index range over
      the integers carries the corresponding bound as a hypothesis.
    - numpy arrays are mutable objects handled by reference: the engine's
      attribute [self.grid] holds a reference.  The model keeps a heap of
      arrays ([gmap loc ndarray]) and the attribute is a location, so that
      the assignment [next_grid = self.grid] of [make_move] is what it is
      in Python: a second name for the same array.
    - Python exceptions are the constructors of [exn]; a call returns its
      outcome together with the world it leaves behind. *)

From stdpp Require Import base numbers option list strings sorting gmap.

Local Open Scope Z_scope.

(** ** numpy arrays and integer indexing *)

Module Np.

Abbreviation ndarray := (list (list Z)).

(** [np.zeros(shape=(r, c))] and [np.ones(shape=(r, c))]. *)
Definition zeros (r c : nat) : ndarray := replicate r (replicate c 0).
Definition ones (r c : nat) : ndarray := replicate r (replicate c 1).

(** Integer indexing along an axis of size [n]: an index [i] with
    [0 <= i < n] is itself, an index with [-n <= i < 0] counts from the end,
    anything else is an [IndexError] (here [None]).  This is numpy's rule
    for an index of machine size; a larger one fails in the conversion,
    before any bound is looked at, and is outside the model. *)
Definition axis_index (n : nat) (i : Z) : option nat :=
  if bool_decide (0 ≤ i < Z.of_nat n) then Some (Z.to_nat i)
  else if bool_decide (- Z.of_nat n ≤ i < 0) then Some (Z.to_nat (i + Z.of_nat n))
  else None.

(** [a[i, j]] *)
Definition getitem (a : ndarray) (i j : Z) : option Z :=
  r ← axis_index (length a) i;
  row ← a !! r;
  c ← axis_index (length row) j;
  row !! c.

(** [a[i, j] = v], for a value [v] that a float64 holds exactly. *)
Definition setitem (a : ndarray) (i j : Z) (v : Z) : option ndarray :=
  r ← axis_index (length a) i;
  row ← a !! r;
  c ← axis_index (length row) j;
  Some (<[r := <[c := v]> row]> a).

(** Reading a cell by natural coordinates, [None] off the array. *)
Definition cell (a : ndarray) (r c : nat) : option Z :=
  a !! r ≫= (.!! c).

(** The array has shape [(r, c)]. *)
Definition has_shape (a : ndarray) (r c : nat) : Prop :=
  length a = r ∧ Forall (λ row, length row = c) a.

(** [a == v] elementwise, as an array of 0/1, for a value [v] that a
    float64 holds exactly. *)
Definition eq_mask (a : ndarray) (v : Z) : ndarray :=
  (λ row : list Z, (λ x, if bool_decide (x = v) then 1 else 0) <$> row) <$> a.

(** Zero-padded read used by a full convolution. *)
Definition at0 (a : ndarray) (i j : Z) : Z :=
  if bool_decide (0 ≤ i ∧ 0 ≤ j)
  then default 0 (cell a (Z.to_nat i) (Z.to_nat j))
  else 0.

Definition sumZ (l : list Z) : Z := foldr Z.add 0 l.

Definition nrows (a : ndarray) : nat := length a.
Definition ncols (a : ndarray) : nat := from_option length 0%nat (head a).

(** [scipy.signal.convolve2d(a, k, mode="full")] with the default zero
    boundary: the output has shape [(ar + kr - 1, ac + kc - 1)] and
    [out[i, j] = sum over (p, q) of k[p, q] * a[i - p, j - q]], cells off
    the input counting 0. *)
Definition convolve2d_at (a k : ndarray) (i j : nat) : Z :=
  sumZ (map (λ p : nat,
    sumZ (map (λ q : nat,
      default 0 (cell k p q) * at0 a (Z.of_nat i - Z.of_nat p) (Z.of_nat j - Z.of_nat q))
      (seq 0 (ncols k))))
    (seq 0 (nrows k))).

Definition convolve2d (a k : ndarray) : ndarray :=
  map (λ i, map (λ j, convolve2d_at a k i j)
                (seq 0 (ncols a + ncols k - 1)))
      (seq 0 (nrows a + nrows k - 1)).

(** [np.any(a >= t)] *)
Definition any_ge (a : ndarray) (t : Z) : bool :=
  existsb (existsb (λ x, bool_decide (t ≤ x))) a.

End Np.

(** ** The engine *)

Definition loc := nat.

Inductive exn : Type :=
  | ValueError          (* raised by [make_move] on a full column *)
  | IndexError          (* raised by numpy on an index out of bounds *)
  | UnboundLocalError.  (* a local read before any assignment *)

Inductive outcome (A : Type) : Type :=
  | Return (a : A)
  | Raise (e : exn).
Arguments Return {A} a.
Arguments Raise {A} e.

(** The attributes of a [Connect4] object. *)
Record Connect4 : Type := mkConnect4 {
  n_rows : nat;
  n_columns : nat;
  win_streak : nat;
  grid : loc;
  win_kernels : list Np.ndarray
}.

(** The heap of arrays and the engine object. *)
Record World : Type := mkWorld {
  heap : gmap loc Np.ndarray;
  self : Connect4
}.

Definition alloc (h : gmap loc Np.ndarray) (a : Np.ndarray) : loc * gmap loc Np.ndarray :=
  let l := fresh (dom h) in (l, <[l := a]> h).

(** The array [self.grid] refers to. *)
Definition board (w : World) : option Np.ndarray := heap w !! grid (self w).

Definition set_self_grid (w : World) (l : loc) : World :=
  mkWorld (heap w)
          (mkConnect4 (n_rows (self w)) (n_columns (self w)) (win_streak (self w))
                      l (win_kernels (self w))).

(** *** [__init__] *)

(** The loop [for i in range(win_streak): d1[i,i] = 1; d2[i, win_streak-i-1] = 1]. *)
Definition diag_kernels_loop (ws : nat) (idxs : list nat) (d : Np.ndarray * Np.ndarray)
  : Np.ndarray * Np.ndarray :=
  foldl (λ d i,
           (default d.1 (Np.setitem d.1 (Z.of_nat i) (Z.of_nat i) 1),
            default d.2 (Np.setitem d.2 (Z.of_nat i) (Z.of_nat ws - Z.of_nat i - 1) 1)))
        d idxs.

Definition make_win_kernels (ws : nat) : list Np.ndarray :=
  let h_win_kernel := Np.ones 1 ws in
  let v_win_kernel := Np.ones ws 1 in
  let d := diag_kernels_loop ws (seq 0 ws) (Np.zeros ws ws, Np.zeros ws ws) in
  [h_win_kernel; v_win_kernel; d.1; d.2].

Definition init (h : gmap loc Np.ndarray) (nr nc ws : nat) : World :=
  let '(l, h') := alloc h (Np.zeros nr nc) in
  mkWorld h' (mkConnect4 nr nc ws l (make_win_kernels ws)).

(** [Connect4(n_rows, n_columns, win_streak)] in an empty heap, and the
    default engine [Connect4()]. *)
Definition new (nr nc ws : nat) : World := init ∅ nr nc ws.
Definition new_default : World := new 6 7 4.

(** *** [make_move] *)

(** The loop [for row in range(self.n_rows)] of [make_move]: the piece
    keeps falling while the next row exists and is empty, and is written
    at the first row where it is not.  The result is the array after the
    loop; running off the end of the range writes nothing. *)
Fixpoint drop_loop (nr : nat) (g : Np.ndarray) (player_id column : Z) (rows : list nat)
  : outcome Np.ndarray :=
  match rows with
  | [] => Return g
  | row :: rows' =>
      let place :=
        match Np.setitem g (Z.of_nat row) column player_id with
        | Some g' => Return g'
        | None => Raise IndexError
        end in
      if bool_decide (row + 1 < nr)%nat then
        match Np.getitem g (Z.of_nat row + 1) column with
        | None => Raise IndexError
        | Some v =>
            if bool_decide (v = 0) then drop_loop nr g player_id column rows'
            else place
        end
      else place
  end.

(** [make_move(self, player_id, column, imaginary)].  [next_grid] is the
    reference [self.grid] itself, so the write of the loop lands in the
    engine's own array, and [self.grid = next_grid] stores the reference
    it already holds.  The returned value is that reference.  (A reference
    always designates an array: the first [None] branch is there for
    totality and is never taken in a world built by [new].) *)
Definition make_move (w : World) (player_id column : Z) (imaginary : bool)
  : outcome loc * World :=
  let next_grid := grid (self w) in
  match heap w !! grid (self w) with
  | None => (Raise IndexError, w)
  | Some g =>
      match Np.getitem g 0 column with
      | None => (Raise IndexError, w)
      | Some top =>
          if bool_decide (top ≠ 0) then (Raise ValueError, w)
          else
            match drop_loop (n_rows (self w)) g player_id column
                            (seq 0 (n_rows (self w))) with
            | Raise e => (Raise e, w)
            | Return g' =>
                let w' := mkWorld (<[next_grid := g']> (heap w)) (self w) in
                let w'' := if negb imaginary then set_self_grid w' next_grid else w' in
                (Return next_grid, w'')
            end
      end
  end.

(** *** [get_valid_moves] *)

Fixpoint valid_moves_loop (g : Np.ndarray) (columns : list nat) (valid_columns : list nat)
  : outcome (list nat) :=
  match columns with
  | [] => Return valid_columns
  | column :: columns' =>
      match Np.getitem g 0 (Z.of_nat column) with
      | None => Raise IndexError
      | Some v =>
          valid_moves_loop g columns'
            (if bool_decide (v = 0) then valid_columns ++ [column] else valid_columns)
      end
  end.

Definition get_valid_moves (w : World) : outcome (list nat) * World :=
  match board w with
  | None => (Raise IndexError, w)
  | Some g => (valid_moves_loop g (seq 0 (n_columns (self w))) [], w)
  end.

(** *** [check_win] *)

(** The loop over the kernels; [has_won] is unbound until the first
    iteration assigns it. *)
Fixpoint check_win_loop (player_pieces : Np.ndarray) (ws : nat)
    (kernels : list Np.ndarray) (has_won : option bool) : option bool :=
  match kernels with
  | [] => has_won
  | kernel :: kernels' =>
      let win_mask := Np.convolve2d player_pieces kernel in
      let has_won := Np.any_ge win_mask (Z.of_nat ws) in
      if has_won then Some has_won
      else check_win_loop player_pieces ws kernels' (Some has_won)
  end.

Definition check_win (w : World) (player_id : Z) : outcome bool * World :=
  match board w with
  | None => (Raise IndexError, w)
  | Some g =>
      let player_pieces := Np.eq_mask g player_id in
      match check_win_loop player_pieces (win_streak (self w)) (win_kernels (self w)) None with
      | Some has_won => (Return has_won, w)
      | None => (Raise UnboundLocalError, w)
      end
  end.

(** *** [reset] *)

Definition reset (w : World) : World :=
  let '(l, h') := alloc (heap w) (Np.zeros (n_rows (self w)) (n_columns (self w))) in
  set_self_grid (mkWorld h' (self w)) l.

(** ** Specification-level notions *)

(** Writing [v] at natural coordinates [(r, c)]; nothing off the array. *)
Definition set_cell (a : Np.ndarray) (r c : nat) (v : Z) : Np.ndarray :=
  match a !! r with
  | Some row => <[r := <[c := v]> row]> a
  | None => a
  end.

(** The engine's grid is a live array of the configured shape. *)
Definition well_formed (w : World) (g : Np.ndarray) : Prop :=
  board w = Some g ∧ Np.has_shape g (n_rows (self w)) (n_columns (self w)).

(** Gravity in column [c]: the top [k] cells are empty and every cell
    below them is occupied. *)
Definition gravity_column (g : Np.ndarray) (nr c : nat) : Prop :=
  ∃ k : nat, (k ≤ nr)%nat ∧
    ∀ r : nat, (r < nr)%nat →
      ((r < k)%nat → Np.cell g r c = Some 0) ∧
      ((k ≤ r)%nat → ∃ v, Np.cell g r c = Some v ∧ v ≠ 0).

Definition gravity (g : Np.ndarray) (nr nc : nat) : Prop :=
  ∀ c : nat, (c < nc)%nat → gravity_column g nr c.

(** Every cell holds Empty (0), Player1 (1) or Player2 (2). *)
Definition cells_valid (g : Np.ndarray) : Prop :=
  ∀ r c v, Np.cell g r c = Some v → v = 0 ∨ v = 1 ∨ v = 2.

(** Every cell of the [nr] x [nc] board is occupied. *)
Definition full (g : Np.ndarray) (nr nc : nat) : Prop :=
  ∀ r c : nat, (r < nr)%nat → (c < nc)%nat → ∃ v, Np.cell g r c = Some v ∧ v ≠ 0.

(** The columns whose topmost cell is Empty, in ascending order. *)
Definition open_columns (g : Np.ndarray) (nc : nat) : list nat :=
  filter (λ c, Np.cell g 0 c = Some 0) (seq 0 nc).

(** The number of cells at which two arrays of the same shape differ. *)
Definition count_diff_row (ra rb : list Z) : nat :=
  sum_list (zip_with (λ x y, if bool_decide (x = y) then 0%nat else 1%nat) ra rb).

Definition count_diff (a b : Np.ndarray) : nat :=
  sum_list (zip_with count_diff_row a b).

(** Boards reachable by legal play: from a fresh engine, by [reset], and
    by [make_move] with a player in {1, 2} and a column listed by
    [get_valid_moves], with either value of [imaginary]. *)
Inductive reachable : World → Prop :=
  | reachable_new nr nc ws : reachable (new nr nc ws)
  | reachable_reset w : reachable w → reachable (reset w)
  | reachable_move w player_id column imaginary cols l w' :
      reachable w →
      player_id = 1 ∨ player_id = 2 →
      fst (get_valid_moves w) = Return cols →
      column ∈ cols →
      make_move w player_id (Z.of_nat column) imaginary = (Return l, w') →
      reachable w'.

(** *** Winning lines, as the game defines them *)

Inductive direction : Type :=
  | Horizontal | Vertical | DiagDownRight | DiagDownLeft.

Definition offset (d : direction) : Z * Z :=
  match d with
  | Horizontal => (0, 1)
  | Vertical => (1, 0)
  | DiagDownRight => (1, 1)
  | DiagDownLeft => (1, -1)
  end.

(** The line of [ws] cells starting at [(r, c)] in direction [d] lies
    within the [nr] x [nc] grid and every cell of it holds [player_id]. *)
Definition covered (g : Np.ndarray) (nr nc ws : nat) (player_id : Z)
    (d : direction) (r c : Z) : Prop :=
  ∀ k : nat, (k < ws)%nat →
    let r' := r + Z.of_nat k * (offset d).1 in
    let c' := c + Z.of_nat k * (offset d).2 in
    0 ≤ r' < Z.of_nat nr ∧ 0 ≤ c' < Z.of_nat nc ∧
    Np.cell g (Z.to_nat r') (Z.to_nat c') = Some player_id.

Definition has_streak (g : Np.ndarray) (nr nc ws : nat) (player_id : Z) : Prop :=
  ∃ d r c, covered g nr nc ws player_id d r c.

(** *** Example positions *)

(** Committed moves [(player_id, column)] played one after the other; a
    move that raises leaves the world as it is. *)
Definition play (w : World) (moves : list (Z * Z)) : World :=
  foldl (λ w m, snd (make_move w m.1 m.2 false)) w moves.

(** Player1 marks at row 5, columns 0 to 3 of the default board. *)
Definition row5_player1 : World :=
  play new_default [(1, 0); (1, 1); (1, 2); (1, 3)].

(** Player1 marks at row 5, columns 0 to 2 only. *)
Definition row5_three : World :=
  play new_default [(1, 0); (1, 1); (1, 2)].

(** Column 0 of the default board holding five pieces: one free cell. *)
Definition column0_five : World :=
  play new_default [(1, 0); (2, 0); (1, 0); (2, 0); (1, 0)].

(** Column 0 of the default board holding six pieces: no free cell. *)
Definition column0_full : World :=
  play new_default [(1, 0); (2, 0); (1, 0); (2, 0); (1, 0); (2, 0)].

(** A one-row, two-column board filled by two moves. *)
Definition tiny_full : World :=
  play (new 1 2 1) [(1, 0); (2, 1)].

(** Every move of the list is legal when its turn comes: the player is 1
    or 2 and the column is listed by [get_valid_moves]. *)
Fixpoint legal_play (w : World) (moves : list (Z * Z)) : bool :=
  match moves with
  | [] => true
  | m :: moves' =>
      bool_decide (m.1 = 1 ∨ m.1 = 2) &&
      bool_decide (0 ≤ m.2) &&
      match fst (get_valid_moves w) with
      | Return cols => bool_decide (Z.to_nat m.2 ∈ cols)
      | Raise _ => false
      end &&
      legal_play (snd (make_move w m.1 m.2 false)) moves'
  end.

(** *** Auxiliary notions used by the proofs *)

(** Where the loop of [make_move] writes: row [r] of column [c] is the
    end of the run of empty cells that starts at the top. *)
Definition lands (g : Np.ndarray) (nr c r : nat) : Prop :=
  (r < nr)%nat ∧
  (∀ r', (r' ≤ r)%nat → Np.cell g r' c = Some 0) ∧
  ((r + 1 = nr)%nat ∨ ∃ v, Np.cell g (r + 1) c = Some v ∧ v ≠ 0).

(** What legal play maintains. *)
Definition invariant (w : World) : Prop :=
  ∃ g, well_formed w g ∧
       gravity g (n_rows (self w)) (n_columns (self w)) ∧
       cells_valid g ∧
       win_kernels (self w) = make_win_kernels (win_streak (self w)).

(** [K] is the [kr] x [kc] array with entries [f p q]. *)
Definition kernel_is (K : Np.ndarray) (kr kc : nat) (f : nat → nat → Z) : Prop :=
  Np.has_shape K kr kc ∧
  ∀ p q, (p < kr)%nat → (q < kc)%nat → Np.cell K p q = Some (f p q).

(** The cell of the input that the [k]-th unit entry of the kernel of
    direction [d] reads, relative to the output position. *)
Definition tap (d : direction) (ws k : nat) : nat * nat :=
  match d with
  | Horizontal => (0, k)
  | Vertical => (k, 0)
  | DiagDownRight => (k, k)
  | DiagDownLeft => (k, ws - 1 - k)
  end%nat.

Definition taps_sum (M : Np.ndarray) (d : direction) (ws i j : nat) : Z :=
  Np.sumZ (map (λ k : nat,
    Np.at0 M (Z.of_nat i - Z.of_nat (tap d ws k).1) (Z.of_nat j - Z.of_nat (tap d ws k).2))
    (seq 0 ws)).

(** The shape of the kernel of each direction. *)
Definition kernel_dims (d : direction) (ws : nat) : nat * nat :=
  match d with
  | Horizontal => (1, ws)
  | Vertical => (ws, 1)
  | DiagDownRight | DiagDownLeft => (ws, ws)
  end%nat.

(** ** The rest of the engine: [print_grid] *)

(** A Python [str] is the list of its code points; what the calls of
    [print] write is the list of their arguments, in order. *)
Abbreviation str := (list N).

Definition str_of (s : String.string) : str :=
  map Ascii.N_of_ascii (String.list_ascii_of_string s).

Definition underscore : N := 95.      (* '_' *)
Definition bar : N := 124.            (* '|' *)
Definition blank : N := 32.           (* ' ' *)
Definition disc : N := 9679.          (* '\u25CF', a Player1 piece *)
Definition ring : N := 9675.          (* '\u25CB', a Player2 piece *)
Definition block : N := 9608.         (* '\u2588' *)
Definition newline : N := 10.         (* '\n' *)

(** The loop [for j in range(self.n_columns)] that builds one row. *)
Fixpoint print_row_loop (g : Np.ndarray) (i : nat) (js : list nat) (row : str)
  : outcome str :=
  match js with
  | [] => Return row
  | j :: js' =>
      match Np.getitem g (Z.of_nat i) (Z.of_nat j) with
      | None => Raise IndexError
      | Some v =>
          if bool_decide (v = 0) then print_row_loop g i js' (row ++ [blank])
          else if bool_decide (v = 1) then print_row_loop g i js' (row ++ [disc])
          else if bool_decide (v = 2) then print_row_loop g i js' (row ++ [ring])
          else Raise ValueError
      end
  end.

(** The loop [for i in range(self.n_rows)]; [out] is what was printed so
    far. *)
Fixpoint print_rows_loop (g : Np.ndarray) (nc : nat) (rows : list nat) (out : list str)
  : outcome unit * list str :=
  match rows with
  | [] => (Return (), out)
  | i :: rows' =>
      match print_row_loop g i (seq 0 nc) [bar] with
      | Raise e => (Raise e, out)
      | Return row => print_rows_loop g nc rows' (out ++ [row ++ [bar]])
      end
  end.

(** [print_grid(self)]: the outcome and the strings printed.  The grid is
    only read. *)
Definition print_grid (w : World) : outcome unit * list str :=
  let g := default [] (board w) in
  let top := replicate (n_columns (self w) + 2) underscore in
  match print_rows_loop g (n_columns (self w)) (seq 0 (n_rows (self w))) [top] with
  | (Raise e, out) => (Raise e, out)
  | (Return _, out) =>
      let bottom := replicate (n_columns (self w) + 2) block in
      (Return (), out ++ [bottom; str_of " 0123456 "%string; [newline]])
  end.

(** *** Reading a printout *)

(** A cell value that [print_grid] has a glyph for. *)
Definition regular (v : Z) : Prop := v = 0 ∨ v = 1 ∨ v = 2.

Definition glyph (v : Z) : N :=
  if bool_decide (v = 0) then blank
  else if bool_decide (v = 1) then disc else ring.

Definition render_row (row : list Z) : str := [bar] ++ (glyph <$> row) ++ [bar].

Definition cell_of_glyph (ch : N) : option Z :=
  if bool_decide (ch = blank) then Some 0
  else if bool_decide (ch = disc) then Some 1
  else if bool_decide (ch = ring) then Some 2
  else None.

(** A printed row without its two bars, glyph by glyph. *)
Definition parse_row (line : str) : option (list Z) :=
  mapM cell_of_glyph (take (length line - 2) (drop 1 line)).

(** The board of a printout of [nr] rows: the lines between the top line
    and the three closing lines. *)
Definition parse_grid (nr : nat) (out : list str) : option Np.ndarray :=
  mapM parse_row (take nr (drop 1 out)).

(** ** The wrapper [Connect4Environment] *)

(** The wrapper's calls can fail in the engine or in the call itself. *)
Inductive env_exn : Type :=
  | EngineError (e : exn)
  | TypeError.          (* a call that does not fit the callee's signature *)

Inductive env_outcome (A : Type) : Type :=
  | EnvReturn (a : A)
  | EnvRaise (e : env_exn).
Arguments EnvReturn {A} a.
Arguments EnvRaise {A} e.

(** The call [self.game.make_move(action, imaginary=b)] of [step] and
    [get_successors]: [action] binds [player_id], nothing binds the required
    parameter [column], and Python raises [TypeError] before the body of
    [make_move] runs. *)
Definition make_move_without_column (w : World) (action : Z) (imaginary : bool)
  : env_outcome loc * World :=
  (EnvRaise TypeError, w).

(** [step(self, action)] *)
Definition step (w : World) (action : Z) : env_outcome (loc * Z) * World :=
  match make_move_without_column w action false with
  | (EnvRaise e, w') => (EnvRaise e, w')
  | (EnvReturn next_state, w') =>
      match check_win w' 1 with
      | (Raise e, w'') => (EnvRaise (EngineError e), w'')
      | (Return b, w'') => (EnvReturn (next_state, if b then 1 else 0), w'')
      end
  end.

(** The loop of [get_successors].  No iteration completes: the call of
    [make_move] raises, and so would [self.get_state(successor)], which
    passes an argument that [get_state(self)] does not take.  The loop is
    therefore its first iteration. *)
Definition get_successors_loop (w : World) (valid_actions : list nat)
    (afterstates : list (unit * nat)) : env_outcome (list (unit * nat)) * World :=
  match valid_actions with
  | [] => (EnvReturn afterstates, w)
  | action :: _ =>
      match make_move_without_column w (Z.of_nat action) true with
      | (EnvRaise e, w') => (EnvRaise e, w')
      | (EnvReturn successor, w') => (EnvRaise TypeError, w')
      end
  end.

(** [get_successors(self)] *)
Definition get_successors (w : World) : env_outcome (list (unit * nat)) * World :=
  match get_valid_moves w with
  | (Raise e, w') => (EnvRaise (EngineError e), w')
  | (Return valid_actions, w') => get_successors_loop w' valid_actions []
  end.

(** ** Notions for the further properties *)

(** Column [c] has exactly [k] free cells, all at the top. *)
Definition column_free (g : Np.ndarray) (nr c k : nat) : Prop :=
  (k ≤ nr)%nat ∧
  ∀ r : nat, (r < nr)%nat →
    ((r < k)%nat → Np.cell g r c = Some 0) ∧
    ((k ≤ r)%nat → ∃ v, Np.cell g r c = Some v ∧ v ≠ 0).

(** The players of the list drop a piece each into column [c], in turn. *)
Definition drop_pieces (w : World) (c : nat) (players : list Z) : World :=
  play w (map (λ p, (p, Z.of_nat c)) players).

(** The [nr] x [nc] array with entries [f p q]. *)
Definition tabulate (nr nc : nat) (f : nat → nat → Z) : Np.ndarray :=
  (λ p, f p <$> seq 0 nc) <$> seq 0 nr.

(** ** Domain of the model *)

(** The integers that a float64 cell holds exactly and that convert to
    float64 without rounding: every integer of magnitude at most 2^53. *)
Definition exact_id (v : Z) : Prop := - 2 ^ 53 ≤ v ≤ 2 ^ 53.

(** The indices that convert to a machine integer (64 bits, signed). *)
Definition machine_index (i : Z) : Prop := - 2 ^ 63 ≤ i < 2 ^ 63.

(** ** Arrays: indexing lemmas *)

Section Arrays.
Implicit Types (a g : Np.ndarray) (r c : nat) (i j v : Z).

Lemma axis_index_nat (n k : nat) :
  (k < n)%nat → Np.axis_index n (Z.of_nat k) = Some k.
Proof.
  intros Hk. unfold Np.axis_index.
  rewrite bool_decide_eq_true_2 by lia. by rewrite Nat2Z.id.
Qed.

Lemma axis_index_Some (n : nat) i k :
  Np.axis_index n i = Some k → (k < n)%nat.
Proof.
  unfold Np.axis_index. repeat case_bool_decide; intros; simplify_eq; lia.
Qed.

Lemma axis_index_out (n : nat) i :
  i < - Z.of_nat n ∨ Z.of_nat n ≤ i → Np.axis_index n i = None.
Proof.
  intros Hi. unfold Np.axis_index.
  rewrite !bool_decide_eq_false_2 by lia. done.
Qed.

Lemma axis_index_wrap (n : nat) i :
  - Z.of_nat n ≤ i < 0 → Np.axis_index n i = Np.axis_index n (i + Z.of_nat n).
Proof.
  intros Hi. unfold Np.axis_index.
  rewrite (bool_decide_eq_false_2 (0 ≤ i < _)) by lia.
  rewrite (bool_decide_eq_true_2 (- _ ≤ i < 0)) by lia.
  rewrite (bool_decide_eq_true_2 (0 ≤ i + _ < _)) by lia. done.
Qed.

Lemma has_shape_row a nr nc r row :
  Np.has_shape a nr nc → a !! r = Some row → length row = nc ∧ (r < nr)%nat.
Proof.
  intros [Hl Hf] Hr. split.
  - by apply (Forall_lookup_1 _ _ _ _ Hf Hr).
  - rewrite <- Hl. by eapply lookup_lt_Some.
Qed.

Lemma cell_lt a nr nc r c v :
  Np.has_shape a nr nc → Np.cell a r c = Some v → (r < nr)%nat ∧ (c < nc)%nat.
Proof.
  intros Hs Hc. unfold Np.cell in Hc.
  destruct (a !! r) as [row|] eqn:Hr; simplify_eq/=.
  destruct (has_shape_row _ _ _ _ _ Hs Hr) as [Hl ?]. split; [done|].
  rewrite <- Hl. by eapply lookup_lt_Some.
Qed.

Lemma cell_is_Some a nr nc r c :
  Np.has_shape a nr nc → (r < nr)%nat → (c < nc)%nat → is_Some (Np.cell a r c).
Proof.
  intros Hs Hr Hc. unfold Np.cell.
  destruct (lookup_lt_is_Some_2 a r) as [row Hrow]; [destruct Hs; lia|].
  rewrite Hrow. simpl. apply lookup_lt_is_Some_2.
  destruct (has_shape_row _ _ _ _ _ Hs Hrow). lia.
Qed.

(** Reading with an integer column index on a shaped array. *)
Lemma getitem_shape a nr nc r j c :
  Np.has_shape a nr nc → Np.axis_index nc j = Some c →
  Np.getitem a (Z.of_nat r) j = Np.cell a r c.
Proof.
  intros Hs Hj. unfold Np.getitem, Np.cell.
  destruct (decide (r < length a)%nat) as [Hr|Hr].
  - rewrite axis_index_nat by done. simpl.
    destruct (a !! r) as [row|] eqn:Hrow; [|done]. simpl.
    destruct (has_shape_row _ _ _ _ _ Hs Hrow) as [-> _]. by rewrite Hj.
  - rewrite axis_index_out by lia. simpl.
    by rewrite lookup_ge_None_2 by lia.
Qed.

Lemma getitem_top a nr nc j c :
  Np.has_shape a nr nc → Np.axis_index nc j = Some c →
  Np.getitem a 0 j = Np.cell a 0 c.
Proof. apply (getitem_shape a nr nc 0). Qed.

Lemma getitem_column_out a nr nc i j :
  Np.has_shape a nr nc → Np.axis_index nc j = None → Np.getitem a i j = None.
Proof.
  intros Hs Hj. unfold Np.getitem.
  destruct (Np.axis_index (length a) i) as [r|]; [|done]. simpl.
  destruct (a !! r) as [row|] eqn:Hrow; [|done]. simpl.
  destruct (has_shape_row _ _ _ _ _ Hs Hrow) as [-> _]. by rewrite Hj.
Qed.

Lemma setitem_shape a nr nc r j c v :
  Np.has_shape a nr nc → Np.axis_index nc j = Some c → (r < nr)%nat →
  Np.setitem a (Z.of_nat r) j v = Some (set_cell a r c v).
Proof.
  intros Hs Hj Hr. unfold Np.setitem, set_cell.
  rewrite axis_index_nat by (destruct Hs; lia). simpl.
  destruct (lookup_lt_is_Some_2 a r) as [row Hrow]; [destruct Hs; lia|].
  rewrite Hrow. simpl.
  destruct (has_shape_row _ _ _ _ _ Hs Hrow) as [-> _]. by rewrite Hj.
Qed.

Lemma set_cell_shape a nr nc r c v :
  Np.has_shape a nr nc → Np.has_shape (set_cell a r c v) nr nc.
Proof.
  intros [Hl Hf]. unfold set_cell.
  destruct (a !! r) as [row|] eqn:Hrow; [|done]. split.
  - by rewrite length_insert.
  - apply Forall_insert; [done|]. rewrite length_insert.
    by apply (Forall_lookup_1 _ _ _ _ Hf Hrow).
Qed.

Lemma cell_set_cell_eq a r c v :
  is_Some (Np.cell a r c) → Np.cell (set_cell a r c v) r c = Some v.
Proof.
  unfold Np.cell, set_cell. intros [x Hx].
  destruct (a !! r) as [row|] eqn:Hrow; simplify_eq/=.
  rewrite list_lookup_insert_eq by (by eapply lookup_lt_Some). simpl.
  apply list_lookup_insert_eq. by eapply lookup_lt_Some.
Qed.

Lemma cell_set_cell_ne a r c r' c' v :
  (r, c) ≠ (r', c') → Np.cell (set_cell a r c v) r' c' = Np.cell a r' c'.
Proof.
  intros Hne. unfold Np.cell, set_cell.
  destruct (a !! r) as [row|] eqn:Hrow; [|done].
  destruct (decide (r = r')) as [<-|Hr].
  - rewrite list_lookup_insert_eq by (by eapply lookup_lt_Some).
    rewrite Hrow. simpl. apply list_lookup_insert_ne. congruence.
  - by rewrite list_lookup_insert_ne.
Qed.

Lemma set_cell_id a r c v :
  Np.cell a r c = Some v → set_cell a r c v = a.
Proof.
  unfold Np.cell, set_cell. intros Hc.
  destruct (a !! r) as [row|] eqn:Hrow; simplify_eq/=.
  rewrite (list_insert_id row c v) by done. by apply list_insert_id.
Qed.

Lemma zeros_shape nr nc : Np.has_shape (Np.zeros nr nc) nr nc.
Proof.
  split; [apply length_replicate|].
  apply Forall_replicate. apply length_replicate.
Qed.

Lemma cell_replicate nr nc r c x :
  (r < nr)%nat → (c < nc)%nat →
  Np.cell (replicate nr (replicate nc x)) r c = Some x.
Proof.
  intros Hr Hc. unfold Np.cell.
  rewrite lookup_replicate_2 by done. simpl. by apply lookup_replicate_2.
Qed.

End Arrays.

(** ** The falling piece *)

Section Drop.
Implicit Types (g : Np.ndarray) (r c : nat).

Lemma drop_loop_from g nr nc player_id column c (n s : nat) :
  Np.has_shape g nr nc →
  Np.axis_index nc column = Some c →
  (s + S n = nr)%nat →
  ∃ r, (s ≤ r < nr)%nat ∧
       (∀ r', (s < r' ≤ r)%nat → Np.cell g r' c = Some 0) ∧
       ((r + 1 = nr)%nat ∨ ∃ v, Np.cell g (r + 1) c = Some v ∧ v ≠ 0) ∧
       drop_loop nr g player_id column (seq s (S n)) = Return (set_cell g r c player_id).
Proof.
  intros Hs Hc. revert s. induction n as [|n IH]; intros s Hn.
  - exists s. cbn [seq drop_loop].
    rewrite bool_decide_eq_false_2 by lia.
    rewrite (setitem_shape _ _ _ _ _ _ _ Hs Hc) by lia.
    split_and!; [lia|lia|intros; lia|by left|done].
  - cbn [seq drop_loop]. rewrite bool_decide_eq_true_2 by lia.
    replace (Z.of_nat s + 1) with (Z.of_nat (s + 1)) by lia.
    rewrite (getitem_shape _ _ _ _ _ _ Hs Hc).
    destruct (cell_is_Some g nr nc (s + 1) c Hs) as [v Hv];
      [lia|by eapply axis_index_Some|].
    rewrite Hv. case_bool_decide as Hz.
    + destruct (IH (S s)) as (r & Hr & Hempty & Hstop & Hloop); [lia|].
      exists r. split_and!; [lia|lia| |done|done].
      intros r' Hr'. destruct (decide (r' = s + 1)%nat) as [->|].
      * by rewrite Hv, Hz.
      * apply Hempty. lia.
    + exists s. rewrite (setitem_shape _ _ _ _ _ _ _ Hs Hc) by lia.
      split_and!; [lia|lia|intros; lia|right; eauto|done].
Qed.

Lemma drop_loop_lands g nr nc player_id column c :
  Np.has_shape g nr nc →
  Np.axis_index nc column = Some c →
  Np.cell g 0 c = Some 0 →
  ∃ r, lands g nr c r ∧
       drop_loop nr g player_id column (seq 0 nr) = Return (set_cell g r c player_id).
Proof.
  intros Hs Hc Htop.
  destruct nr as [|n]; [apply (cell_lt _ _ _ _ _ _ Hs) in Htop; lia|].
  destruct (drop_loop_from g (S n) nc player_id column c n 0 Hs Hc)
    as (r & Hr & Hempty & Hstop & Hloop); [lia|].
  exists r. split; [|done]. split; [lia|]. split; [|done].
  intros r' Hr'. destruct (decide (r' = 0)%nat) as [->|]; [done|].
  apply Hempty. lia.
Qed.

(** The landing row is unique. *)
Lemma lands_unique g nr c r1 r2 :
  lands g nr c r1 → lands g nr c r2 → r1 = r2.
Proof.
  intros (H1 & E1 & S1) (H2 & E2 & S2).
  destruct (decide (r1 < r2)%nat).
  { destruct S1 as [?|(v & Hv & Hne)]; [lia|].
    rewrite E2 in Hv by lia. congruence. }
  destruct (decide (r2 < r1)%nat); [|lia].
  destruct S2 as [?|(v & Hv & Hne)]; [lia|].
  rewrite E1 in Hv by lia. congruence.
Qed.

End Drop.

(** ** [make_move], case by case *)

Section MakeMove.
Implicit Types (w : World) (g : Np.ndarray).

Lemma self_eta (s : Connect4) :
  mkConnect4 (n_rows s) (n_columns s) (win_streak s) (grid s) (win_kernels s) = s.
Proof. by destruct s. Qed.

(** The flag [imaginary] has no effect at all. *)
Lemma make_move_imaginary_irrelevant w player_id column b1 b2 :
  make_move w player_id column b1 = make_move w player_id column b2.
Proof.
  unfold make_move.
  destruct (heap w !! grid (self w)) as [g|]; [|done].
  destruct (Np.getitem g 0 column) as [top|]; [|done].
  case_bool_decide; [done|].
  destruct (drop_loop _ _ _ _ _) as [g'|e]; [|done].
  destruct b1, b2; simpl; unfold set_self_grid; simpl; by rewrite ?self_eta.
Qed.

(** A move into a column whose top cell is empty. *)
Lemma make_move_open w g player_id column imaginary c :
  well_formed w g →
  Np.axis_index (n_columns (self w)) column = Some c →
  Np.cell g 0 c = Some 0 →
  ∃ r, lands g (n_rows (self w)) c r ∧
       make_move w player_id column imaginary =
         (Return (grid (self w)),
          mkWorld (<[grid (self w) := set_cell g r c player_id]> (heap w)) (self w)).
Proof.
  intros [Hb Hs] Hc Htop.
  destruct (drop_loop_lands g _ _ player_id column c Hs Hc Htop) as (r & Hl & Hloop).
  exists r. split; [done|].
  rewrite (make_move_imaginary_irrelevant w player_id column imaginary true).
  unfold make_move. unfold board in Hb. rewrite Hb.
  rewrite (getitem_top _ _ _ _ _ Hs Hc), Htop.
  rewrite bool_decide_eq_false_2 by (intros ?; done).
  by rewrite Hloop.
Qed.

(** A move into a column whose top cell is occupied. *)
Lemma make_move_full w g player_id column imaginary c v :
  well_formed w g →
  Np.axis_index (n_columns (self w)) column = Some c →
  Np.cell g 0 c = Some v → v ≠ 0 →
  make_move w player_id column imaginary = (Raise ValueError, w).
Proof.
  intros [Hb Hs] Hc Htop Hv.
  unfold make_move. unfold board in Hb. rewrite Hb.
  rewrite (getitem_top _ _ _ _ _ Hs Hc), Htop.
  by rewrite bool_decide_eq_true_2.
Qed.

(** A move with a column index numpy rejects. *)
Lemma make_move_out w g player_id column imaginary :
  well_formed w g →
  Np.axis_index (n_columns (self w)) column = None →
  make_move w player_id column imaginary = (Raise IndexError, w).
Proof.
  intros [Hb Hs] Hc.
  unfold make_move. unfold board in Hb. rewrite Hb.
  by rewrite (getitem_column_out _ _ _ _ _ Hs Hc).
Qed.

End MakeMove.

(** ** [get_valid_moves] *)

Section ValidMoves.
Implicit Types (w : World) (g : Np.ndarray).

Lemma valid_moves_loop_rows g nr nc (s n : nat) acc :
  Np.has_shape g nr nc → (0 < nr)%nat → (s + n ≤ nc)%nat →
  valid_moves_loop g (seq s n) acc =
    Return (acc ++ filter (λ c, Np.cell g 0 c = Some 0) (seq s n)).
Proof.
  intros Hs Hnr. revert s acc. induction n as [|n IH]; intros s acc Hn.
  - simpl. by rewrite app_nil_r.
  - cbn [seq valid_moves_loop].
    rewrite (getitem_top g nr nc (Z.of_nat s) s Hs) by (apply axis_index_nat; lia).
    destruct (cell_is_Some g nr nc 0 s Hs) as [v Hv]; [lia..|].
    rewrite Hv, IH by lia. rewrite filter_cons.
    case_bool_decide as Hz; subst.
    + rewrite decide_True by done. by rewrite <- app_assoc.
    + rewrite decide_False by congruence. done.
Qed.

Lemma valid_moves_loop_no_rows g nc (s n : nat) acc cols :
  Np.has_shape g 0 nc →
  valid_moves_loop g (seq s n) acc = Return cols → cols = acc.
Proof.
  intros [Hl _]. destruct g; [|done].
  destruct n; simpl; [congruence|done].
Qed.

Lemma get_valid_moves_open w g :
  well_formed w g → (0 < n_rows (self w))%nat →
  get_valid_moves w = (Return (open_columns g (n_columns (self w))), w).
Proof.
  intros [Hb Hs] Hnr. unfold get_valid_moves. rewrite Hb.
  by rewrite (valid_moves_loop_rows g _ _ 0 _ [] Hs Hnr).
Qed.

Lemma elem_of_open_columns g nc (c : nat) :
  c ∈ open_columns g nc ↔ (c < nc)%nat ∧ Np.cell g 0 c = Some 0.
Proof.
  unfold open_columns. rewrite list_elem_of_filter, elem_of_seq.
  split; intros []; split; first [done|lia].
Qed.

(** A column listed by [get_valid_moves] is in range and open. *)
Lemma get_valid_moves_elem w g cols (c : nat) :
  well_formed w g →
  fst (get_valid_moves w) = Return cols → c ∈ cols →
  (c < n_columns (self w))%nat ∧ Np.cell g 0 c = Some 0.
Proof.
  intros Hwf Hv Hc.
  destruct (decide (0 < n_rows (self w))%nat) as [Hnr|Hnr].
  - rewrite (get_valid_moves_open w g Hwf Hnr) in Hv. simpl in Hv.
    simplify_eq. by apply elem_of_open_columns.
  - destruct Hwf as [Hb Hs]. unfold get_valid_moves in Hv. rewrite Hb in Hv.
    simpl in Hv. assert (n_rows (self w) = 0%nat) as Hz by lia.
    rewrite Hz in Hs. apply (valid_moves_loop_no_rows _ _ _ _ _ _ Hs) in Hv.
    subst cols. by apply elem_of_nil in Hc.
Qed.

End ValidMoves.

(** ** Counting changed cells *)

Section CountDiff.

Lemma count_diff_row_refl (row : list Z) : count_diff_row row row = 0%nat.
Proof.
  unfold count_diff_row. induction row as [|x row IH]; [done|].
  simpl. by rewrite bool_decide_eq_true_2, IH.
Qed.

Lemma count_diff_refl (a : Np.ndarray) : count_diff a a = 0%nat.
Proof.
  unfold count_diff. induction a as [|row a IH]; [done|].
  simpl. by rewrite count_diff_row_refl, IH.
Qed.

Lemma count_diff_row_insert (row : list Z) (c : nat) (x v : Z) :
  row !! c = Some x → x ≠ v → count_diff_row row (<[c := v]> row) = 1%nat.
Proof.
  revert c. induction row as [|y row IH]; intros [|c] Hc Hne; simplify_eq/=.
  - unfold count_diff_row. simpl. rewrite bool_decide_eq_false_2 by done.
    fold (count_diff_row row row). by rewrite count_diff_row_refl.
  - unfold count_diff_row in *. simpl. rewrite bool_decide_eq_true_2 by done.
    by rewrite IH.
Qed.

Lemma count_diff_insert (a : Np.ndarray) (r : nat) (row row' : list Z) :
  a !! r = Some row → count_diff a (<[r := row']> a) = count_diff_row row row'.
Proof.
  revert r. induction a as [|y a IH]; intros [|r] Hr; simplify_eq/=.
  - unfold count_diff. simpl. fold (count_diff a a).
    rewrite count_diff_refl. lia.
  - unfold count_diff in *. simpl. rewrite count_diff_row_refl.
    by rewrite IH.
Qed.

Lemma count_diff_set_cell (a : Np.ndarray) (r c : nat) (x v : Z) :
  Np.cell a r c = Some x → x ≠ v → count_diff a (set_cell a r c v) = 1%nat.
Proof.
  unfold Np.cell, set_cell. intros Hc Hne.
  destruct (a !! r) as [row|] eqn:Hrow; simplify_eq/=.
  rewrite (count_diff_insert a r row) by done.
  by eapply count_diff_row_insert.
Qed.

End CountDiff.

(** ** Invariants of legal play *)

Section Invariants.
Implicit Types (w : World) (g : Np.ndarray).

(** Under gravity the landing row is the last empty row of the column. *)
Lemma lands_lowest g nr nc c r :
  gravity g nr nc → (c < nc)%nat → lands g nr c r →
  ∀ r', (r < r' < nr)%nat → ∃ v, Np.cell g r' c = Some v ∧ v ≠ 0.
Proof.
  intros Hg Hc (Hr & Hempty & Hstop) r' Hr'.
  destruct (Hg c Hc) as (k & Hk & Hcol).
  apply Hcol; [lia|].
  destruct (decide (k ≤ r + 1)%nat); [lia|].
  destruct (Hcol (r + 1)%nat) as [Hz _]; [lia|].
  destruct Hstop as [?|(v & Hv & Hne)]; [lia|].
  rewrite Hz in Hv by lia. congruence.
Qed.

Lemma gravity_set_cell g nr nc c r player_id :
  Np.has_shape g nr nc → gravity g nr nc → (c < nc)%nat →
  lands g nr c r → player_id ≠ 0 →
  gravity (set_cell g r c player_id) nr nc.
Proof.
  intros Hs Hg Hc Hl Hp c' Hc'.
  destruct (decide (c' = c)) as [->|Hne].
  - exists r. destruct Hl as (Hr & Hempty & Hstop). split; [lia|].
    intros r' Hr'. split; intros Hlt.
    + rewrite cell_set_cell_ne by (intros [=]; lia). apply Hempty. lia.
    + destruct (decide (r' = r)) as [->|].
      * exists player_id. split; [|done].
        apply cell_set_cell_eq. rewrite Hempty by lia. eauto.
      * rewrite cell_set_cell_ne by (intros [=]; lia).
        apply (lands_lowest g nr nc c r); [done..|lia].
  - destruct (Hg c' Hc') as (k & Hk & Hcol). exists k. split; [done|].
    intros r' Hr'. rewrite cell_set_cell_ne by congruence. by apply Hcol.
Qed.

Lemma gravity_zeros nr nc : gravity (Np.zeros nr nc) nr nc.
Proof.
  intros c Hc. exists nr. split; [done|]. intros r Hr. split; [|lia].
  intros _. by apply cell_replicate.
Qed.

Lemma cells_valid_zeros nr nc : cells_valid (Np.zeros nr nc).
Proof.
  intros r c v Hv.
  destruct (cell_lt _ _ _ _ _ _ (zeros_shape nr nc) Hv) as [Hr Hc].
  unfold Np.zeros in Hv. rewrite cell_replicate in Hv by done.
  left. congruence.
Qed.

Lemma cells_valid_set_cell g r c player_id :
  cells_valid g → player_id = 1 ∨ player_id = 2 →
  cells_valid (set_cell g r c player_id).
Proof.
  intros Hv Hp r' c' v Hc.
  destruct (decide ((r, c) = (r', c'))) as [[= <- <-]|Hne].
  - destruct (Np.cell g r c) as [x|] eqn:Hx.
    + rewrite cell_set_cell_eq in Hc by (rewrite Hx; eauto).
      injection Hc as <-. by right.
    + unfold set_cell, Np.cell in *.
      destruct (g !! r) as [row|] eqn:Hrow; simplify_eq/=.
      * rewrite list_lookup_insert_eq in Hc by (by eapply lookup_lt_Some).
        simpl in Hc. rewrite list_insert_ge in Hc by (by apply lookup_ge_None).
        congruence.
      * by rewrite Hrow in Hc.
  - rewrite cell_set_cell_ne in Hc by done. eauto.
Qed.

Lemma invariant_init h nr nc ws : invariant (init h nr nc ws).
Proof.
  exists (Np.zeros nr nc). unfold init, alloc, well_formed, board. simpl.
  rewrite lookup_insert_eq.
  split_and!; auto using zeros_shape, gravity_zeros, cells_valid_zeros.
Qed.

Lemma invariant_reset w : invariant w → invariant (reset w).
Proof.
  intros (g & _ & _ & _ & Hk).
  exists (Np.zeros (n_rows (self w)) (n_columns (self w))).
  unfold reset, alloc, well_formed, board. simpl.
  rewrite lookup_insert_eq.
  split_and!; auto using zeros_shape, gravity_zeros, cells_valid_zeros.
Qed.

Lemma invariant_move w player_id (column : nat) imaginary cols l w' :
  invariant w →
  player_id = 1 ∨ player_id = 2 →
  fst (get_valid_moves w) = Return cols →
  column ∈ cols →
  make_move w player_id (Z.of_nat column) imaginary = (Return l, w') →
  invariant w'.
Proof.
  intros (g & Hwf & Hg & Hv & Hk) Hp Hcols Hc Hmove.
  destruct (get_valid_moves_elem w g cols column Hwf Hcols Hc) as [Hlt Htop].
  destruct (make_move_open w g player_id (Z.of_nat column) imaginary column Hwf)
    as (r & Hl & Heq); [by apply axis_index_nat|done|].
  rewrite Heq in Hmove. simplify_eq.
  exists (set_cell g r column player_id). destruct Hwf as [Hb Hs].
  unfold well_formed, board. simpl. rewrite lookup_insert_eq.
  split_and!; [done|by apply set_cell_shape| |by apply cells_valid_set_cell|done].
  apply gravity_set_cell; [done..|lia].
Qed.

Lemma reachable_invariant w : reachable w → invariant w.
Proof.
  induction 1 as [nr nc ws|w _ IH|w p c im cols l w' _ IH Hp Hcols Hc Hmove].
  - apply invariant_init.
  - by apply invariant_reset.
  - by eapply invariant_move.
Qed.

(** Progress: a listed column never makes [make_move] raise. *)
Lemma legal_move_returns w player_id (column : nat) imaginary cols :
  reachable w →
  fst (get_valid_moves w) = Return cols → column ∈ cols →
  ∃ w', make_move w player_id (Z.of_nat column) imaginary = (Return (grid (self w)), w').
Proof.
  intros Hr Hcols Hc.
  destruct (reachable_invariant w Hr) as (g & Hwf & _).
  destruct (get_valid_moves_elem w g cols column Hwf Hcols Hc) as [Hlt Htop].
  destruct (make_move_open w g player_id (Z.of_nat column) imaginary column Hwf)
    as (r & Hl & Heq); [by apply axis_index_nat|done|].
  eauto.
Qed.

End Invariants.

(** ** Win detection by convolution *)

Section Sums.

Lemma sumZ_ext {A} (f h : A → Z) (l : list A) :
  (∀ x, In x l → f x = h x) → Np.sumZ (map f l) = Np.sumZ (map h l).
Proof.
  induction l as [|x l IH]; intros Hext; [done|]. simpl.
  rewrite Hext by (by left). rewrite IH; [done|]. intros y Hy. apply Hext. by right.
Qed.

(** A sum against a one-hot row picks one term. *)
Lemma sumZ_one_hot (f : nat → Z) (q0 s n : nat) :
  Np.sumZ (map (λ q, (if decide (q = q0) then 1 else 0) * f q) (seq s n)) =
    if decide (s ≤ q0 < s + n)%nat then f q0 else 0.
Proof.
  revert s. induction n as [|n IH]; intros s.
  - simpl. by rewrite decide_False by lia.
  - cbn [seq map Np.sumZ foldr]. fold (Np.sumZ (map (λ q, (if decide (q = q0) then 1 else 0) * f q) (seq (S s) n))).
    rewrite IH. destruct (decide (s = q0)) as [->|].
    + rewrite decide_False by lia. rewrite decide_True by lia. lia.
    + destruct (decide (S s ≤ q0 < S s + n)%nat).
      * rewrite decide_True by lia. lia.
      * rewrite decide_False by lia. lia.
Qed.

(** A sum of [length l] bits reaches [length l] only when every bit is set. *)
Lemma sumZ_bits {A} (f : A → Z) (l : list A) :
  (∀ x, In x l → f x = 0 ∨ f x = 1) →
  0 ≤ Np.sumZ (map f l) ≤ Z.of_nat (length l) ∧
  (Z.of_nat (length l) ≤ Np.sumZ (map f l) ↔ ∀ x, In x l → f x = 1).
Proof.
  induction l as [|x l IH]; intros Hb.
  - simpl. split; [lia|]. split; [intros _ ? []|lia].
  - destruct IH as [Hrange Hiff]; [intros y Hy; apply Hb; by right|].
    cbn [map Np.sumZ foldr length]. fold (Np.sumZ (map f l)).
    destruct (Hb x (or_introl eq_refl)) as [Hx|Hx]; rewrite Hx.
    + split; [lia|]. split; [lia|]. intros Hall.
      specialize (Hall x (or_introl eq_refl)). lia.
    + split; [lia|]. split.
      * intros Hle y [<-|Hy]; [done|]. apply Hiff; [lia|done].
      * intros Hall. assert (Z.of_nat (length l) ≤ Np.sumZ (map f l)); [|lia].
        apply Hiff. intros y Hy. apply Hall. by right.
Qed.

End Sums.

Section Kernels.
Implicit Types (K : Np.ndarray) (p q : nat).

Lemma kernel_is_ones kr kc : kernel_is (Np.ones kr kc) kr kc (λ _ _, 1).
Proof.
  split.
  - split; [apply length_replicate|].
    apply Forall_replicate, length_replicate.
  - intros p q Hp Hq. by apply cell_replicate.
Qed.

Lemma kernel_is_set_cell K kr kc f p0 q0 v :
  kernel_is K kr kc f → (p0 < kr)%nat → (q0 < kc)%nat →
  kernel_is (set_cell K p0 q0 v) kr kc
            (λ p q, if decide (p = p0 ∧ q = q0) then v else f p q).
Proof.
  intros [Hs Hf] Hp0 Hq0. split; [by apply set_cell_shape|].
  intros p q Hp Hq. case_decide as Heq.
  - destruct Heq as [-> ->]. apply cell_set_cell_eq. rewrite Hf by done. eauto.
  - rewrite cell_set_cell_ne by (intros [=]; naive_solver). by apply Hf.
Qed.

Lemma kernel_is_ext K kr kc f h :
  kernel_is K kr kc f →
  (∀ p q, (p < kr)%nat → (q < kc)%nat → f p q = h p q) →
  kernel_is K kr kc h.
Proof.
  intros [Hs Hf] Hext. split; [done|].
  intros p q Hp Hq. rewrite Hf by done. f_equal. by apply Hext.
Qed.

(** The state of the two diagonal kernels after [n] iterations. *)
Lemma diag_kernels_loop_spec ws n :
  (n ≤ ws)%nat →
  let d := diag_kernels_loop ws (seq 0 n) (Np.zeros ws ws, Np.zeros ws ws) in
  kernel_is d.1 ws ws (λ p q, if decide (p = q ∧ p < n)%nat then 1 else 0) ∧
  kernel_is d.2 ws ws (λ p q, if decide (p + q + 1 = ws ∧ p < n)%nat then 1 else 0).
Proof.
  induction n as [|n IH]; intros Hn; cbv zeta in *.
  - simpl. split; (split; [apply zeros_shape|]); intros p q Hp Hq;
      rewrite decide_False by lia; by apply cell_replicate.
  - destruct IH as [K1 K2]; [lia|].
    pose proof (proj1 K1) as Hs1. pose proof (proj1 K2) as Hs2.
    rewrite seq_S. unfold diag_kernels_loop in *. rewrite foldl_app. simpl.
    set (d := foldl _ _ (seq 0 n)) in *.
    replace (Z.of_nat ws - Z.of_nat n - 1) with (Z.of_nat (ws - n - 1)) by lia.
    rewrite (setitem_shape d.1 ws ws n (Z.of_nat n) n 1 Hs1)
      by first [apply axis_index_nat; lia | lia].
    rewrite (setitem_shape d.2 ws ws n (Z.of_nat (ws - n - 1)) (ws - n - 1) 1 Hs2)
      by first [apply axis_index_nat; lia | lia].
    simpl. split.
    + eapply kernel_is_ext;
        [apply (kernel_is_set_cell d.1 ws ws _ n n 1 K1); lia|].
      intros p q Hp Hq. simpl. repeat case_decide; lia.
    + eapply kernel_is_ext;
        [apply (kernel_is_set_cell d.2 ws ws _ n (ws - n - 1) 1 K2); lia|].
      intros p q Hp Hq. simpl. repeat case_decide; lia.
Qed.

(** The four kernels built by [__init__]. *)
Lemma make_win_kernels_spec ws :
  ∃ h v d1 d2,
    make_win_kernels ws = [h; v; d1; d2] ∧
    kernel_is h 1 ws (λ _ _, 1) ∧
    kernel_is v ws 1 (λ _ _, 1) ∧
    kernel_is d1 ws ws (λ p q, if decide (p = q) then 1 else 0) ∧
    kernel_is d2 ws ws (λ p q, if decide (p + q + 1 = ws)%nat then 1 else 0).
Proof.
  destruct (diag_kernels_loop_spec ws ws) as [H1 H2]; [done|].
  eexists _, _, _, _. split; [reflexivity|].
  split_and!; [apply kernel_is_ones..| |].
  - eapply kernel_is_ext; [exact H1|]. intros p q Hp Hq. simpl.
    repeat case_decide; lia.
  - eapply kernel_is_ext; [exact H2|]. intros p q Hp Hq. simpl.
    repeat case_decide; lia.
Qed.

End Kernels.

Section Convolve.
Implicit Types (M K g : Np.ndarray) (i j : nat) (d : direction).

Lemma shape_nrows g nr nc : Np.has_shape g nr nc → Np.nrows g = nr.
Proof. by intros [? _]. Qed.

Lemma shape_ncols g nr nc : Np.has_shape g nr nc → (0 < nr)%nat → Np.ncols g = nc.
Proof.
  intros [Hl Hf] Hnr. unfold Np.ncols.
  destruct g as [|row g]; [simpl in Hl; lia|]. simpl.
  by apply Forall_cons_1 in Hf as [? _].
Qed.

(** The convolution with a kernel of known entries. *)
Lemma convolve2d_at_kernel M K kr kc f i j :
  kernel_is K kr kc f → (0 < kr)%nat →
  Np.convolve2d_at M K i j =
    Np.sumZ (map (λ p : nat,
      Np.sumZ (map (λ q : nat,
        f p q * Np.at0 M (Z.of_nat i - Z.of_nat p) (Z.of_nat j - Z.of_nat q))
        (seq 0 kc)))
      (seq 0 kr)).
Proof.
  intros [Hs Hf] Hkr. unfold Np.convolve2d_at.
  rewrite (shape_nrows _ _ _ Hs), (shape_ncols _ _ _ Hs Hkr).
  apply sumZ_ext. intros p Hp. apply sumZ_ext. intros q Hq.
  apply in_seq in Hp, Hq. by rewrite Hf by lia.
Qed.

Lemma convolve2d_at_h M K ws i j :
  kernel_is K 1 ws (λ _ _, 1) →
  Np.convolve2d_at M K i j = taps_sum M Horizontal ws i j.
Proof.
  intros HK. rewrite (convolve2d_at_kernel M K 1 ws _ i j HK) by lia.
  unfold taps_sum. simpl. rewrite Z.add_0_r.
  apply sumZ_ext. intros q _. lia.
Qed.

Lemma convolve2d_at_v M K ws i j :
  kernel_is K ws 1 (λ _ _, 1) → (0 < ws)%nat →
  Np.convolve2d_at M K i j = taps_sum M Vertical ws i j.
Proof.
  intros HK Hws. rewrite (convolve2d_at_kernel M K ws 1 _ i j HK) by lia.
  unfold taps_sum. apply sumZ_ext. intros p _. simpl. lia.
Qed.

Lemma convolve2d_at_d1 M K ws i j :
  kernel_is K ws ws (λ p q, if decide (p = q) then 1 else 0) → (0 < ws)%nat →
  Np.convolve2d_at M K i j = taps_sum M DiagDownRight ws i j.
Proof.
  intros HK Hws. rewrite (convolve2d_at_kernel M K ws ws _ i j HK) by lia.
  unfold taps_sum. apply sumZ_ext. intros p Hp. apply in_seq in Hp. simpl.
  rewrite (sumZ_ext _ (λ q : nat, (if decide (q = p) then 1 else 0) *
             Np.at0 M (Z.of_nat i - Z.of_nat p) (Z.of_nat j - Z.of_nat q))).
  - rewrite (sumZ_one_hot (λ q : nat, Np.at0 M (Z.of_nat i - Z.of_nat p)
                                         (Z.of_nat j - Z.of_nat q)) p 0 ws).
    by rewrite decide_True by lia.
  - intros q _. repeat case_decide; first [lia|congruence].
Qed.

Lemma convolve2d_at_d2 M K ws i j :
  kernel_is K ws ws (λ p q, if decide (p + q + 1 = ws)%nat then 1 else 0) →
  (0 < ws)%nat →
  Np.convolve2d_at M K i j = taps_sum M DiagDownLeft ws i j.
Proof.
  intros HK Hws. rewrite (convolve2d_at_kernel M K ws ws _ i j HK) by lia.
  unfold taps_sum. apply sumZ_ext. intros p Hp. apply in_seq in Hp. simpl.
  rewrite (sumZ_ext _ (λ q : nat, (if decide (q = ws - 1 - p)%nat then 1 else 0) *
             Np.at0 M (Z.of_nat i - Z.of_nat p) (Z.of_nat j - Z.of_nat q))).
  - rewrite (sumZ_one_hot (λ q : nat, Np.at0 M (Z.of_nat i - Z.of_nat p)
                                         (Z.of_nat j - Z.of_nat q)) (ws - 1 - p) 0 ws).
    by rewrite decide_True by lia.
  - intros q _. repeat case_decide; first [lia|congruence].
Qed.

(** The mask of a player's pieces. *)
Lemma eq_mask_shape g nr nc v :
  Np.has_shape g nr nc → Np.has_shape (Np.eq_mask g v) nr nc.
Proof.
  intros [Hl Hf]. split; unfold Np.eq_mask.
  - by rewrite length_fmap.
  - apply Forall_fmap. eapply Forall_impl; [exact Hf|].
    intros row Hrow. simpl. by rewrite length_fmap.
Qed.

Lemma cell_eq_mask g v (r c : nat) :
  Np.cell (Np.eq_mask g v) r c =
    (λ x, if bool_decide (x = v) then 1 else 0) <$> Np.cell g r c.
Proof.
  unfold Np.cell, Np.eq_mask. rewrite list_lookup_fmap.
  destruct (g !! r) as [row|]; [|done]. simpl. by rewrite list_lookup_fmap.
Qed.

Lemma at0_eq_mask g v (x y : Z) :
  Np.at0 (Np.eq_mask g v) x y =
    if decide (0 ≤ x ∧ 0 ≤ y ∧ Np.cell g (Z.to_nat x) (Z.to_nat y) = Some v)
    then 1 else 0.
Proof.
  unfold Np.at0. case_bool_decide as Hxy.
  - rewrite cell_eq_mask. destruct (Np.cell g _ _) as [u|] eqn:Hu; simpl.
    + case_bool_decide; subst.
      * rewrite decide_True; [done|]. by destruct Hxy.
      * rewrite decide_False; [done|]. intros (_ & _ & [=]). done.
    + rewrite decide_False; [done|]. intros (_ & _ & [=]).
  - rewrite decide_False; [done|]. intros (? & ? & _). by apply Hxy.
Qed.

(** The sum over the taps reaches [ws] exactly when every tap reads a
    piece of the player inside the grid. *)
Lemma taps_sum_full g v d ws i j :
  Z.of_nat ws ≤ taps_sum (Np.eq_mask g v) d ws i j ↔
  ∀ k : nat, (k < ws)%nat →
    0 ≤ Z.of_nat i - Z.of_nat (tap d ws k).1 ∧
    0 ≤ Z.of_nat j - Z.of_nat (tap d ws k).2 ∧
    Np.cell g (Z.to_nat (Z.of_nat i - Z.of_nat (tap d ws k).1))
              (Z.to_nat (Z.of_nat j - Z.of_nat (tap d ws k).2)) = Some v.
Proof.
  unfold taps_sum.
  destruct (sumZ_bits (λ k : nat,
    Np.at0 (Np.eq_mask g v) (Z.of_nat i - Z.of_nat (tap d ws k).1)
                            (Z.of_nat j - Z.of_nat (tap d ws k).2)) (seq 0 ws))
    as [_ Hiff].
  { intros k _. rewrite at0_eq_mask. case_decide; auto. }
  rewrite length_seq in Hiff. rewrite Hiff. split.
  - intros Hall k Hk. specialize (Hall k). rewrite at0_eq_mask in Hall.
    case_decide; [done|]. exfalso.
    assert (0 = 1) as ?; [|done]. apply Hall, in_seq. lia.
  - intros Hall k Hk. apply in_seq in Hk. rewrite at0_eq_mask.
    rewrite decide_True; [done|]. apply Hall. lia.
Qed.

(** [np.any(win_mask >= t)] over the full convolution. *)
Lemma any_ge_convolve2d M K t :
  Np.any_ge (Np.convolve2d M K) t = true ↔
  ∃ i j, (i < Np.nrows M + Np.nrows K - 1)%nat ∧
         (j < Np.ncols M + Np.ncols K - 1)%nat ∧
         t ≤ Np.convolve2d_at M K i j.
Proof.
  unfold Np.any_ge, Np.convolve2d. rewrite existsb_exists. split.
  - intros (row & Hrow & Hex). apply in_map_iff in Hrow as (i & <- & Hi).
    apply existsb_exists in Hex as (x & Hx & Hge).
    apply in_map_iff in Hx as (j & <- & Hj).
    apply in_seq in Hi, Hj. apply bool_decide_eq_true_1 in Hge.
    exists i, j. split_and!; [lia|lia|done].
  - intros (i & j & Hi & Hj & Hge).
    eexists. split; [apply in_map_iff; exists i; split; [reflexivity|apply in_seq; lia]|].
    apply existsb_exists. eexists.
    split; [apply in_map_iff; exists j; split; [reflexivity|apply in_seq; lia]|].
    by apply bool_decide_eq_true_2.
Qed.

End Convolve.

Section Streaks.
Implicit Types (g : Np.ndarray) (d : direction).

(** Moves a fact about one cell to the same cell written differently. *)
Ltac same_cell H :=
  match goal with
  | |- Np.cell _ (Z.to_nat ?a) (Z.to_nat ?b) = _ =>
      match type of H with
      | Np.cell _ (Z.to_nat ?a') (Z.to_nat ?b') = _ =>
          replace a with a' by lia; replace b with b' by lia; exact H
      end
  end.

(** From an output position of the convolution to a line of the grid. *)
Lemma taps_to_covered g nr nc ws v d (i j : nat) :
  Np.has_shape g nr nc → (0 < ws)%nat →
  Z.of_nat ws ≤ taps_sum (Np.eq_mask g v) d ws i j →
  ∃ r c, covered g nr nc ws v d r c.
Proof.
  intros Hs Hws Hsum. rewrite taps_sum_full in Hsum.
  exists (Z.of_nat i - Z.of_nat (ws - 1) * (offset d).1).
  exists (match d with
          | DiagDownLeft => Z.of_nat j
          | _ => Z.of_nat j - Z.of_nat (ws - 1) * (offset d).2
          end).
  intros k Hk. destruct (Hsum (ws - 1 - k)%nat) as (Hi & Hj & Hc); [lia|].
  destruct (cell_lt _ _ _ _ _ _ Hs Hc) as [Hr' Hc'].
  destruct d; cbn [tap offset fst snd] in *;
    (split_and!; [lia..|same_cell Hc]).
Qed.

(** From a line of the grid to an output position of the convolution. *)
Lemma covered_to_taps g nr nc ws v d (r c : Z) :
  (0 < ws)%nat → covered g nr nc ws v d r c →
  ∃ i j : nat,
    (i < nr + (kernel_dims d ws).1 - 1)%nat ∧
    (j < nc + (kernel_dims d ws).2 - 1)%nat ∧
    Z.of_nat ws ≤ taps_sum (Np.eq_mask g v) d ws i j.
Proof.
  intros Hws Hcov.
  pose proof (Hcov 0%nat ltac:(lia)) as (Hr0 & Hc0 & _).
  pose proof (Hcov (ws - 1)%nat ltac:(lia)) as (Hr1 & Hc1 & _).
  exists (Z.to_nat (r + Z.of_nat (ws - 1) * (offset d).1)).
  exists (Z.to_nat (match d with
                    | DiagDownLeft => c
                    | _ => c + Z.of_nat (ws - 1) * (offset d).2
                    end)).
  split_and!.
  - destruct d; cbn [kernel_dims offset fst snd] in *; lia.
  - destruct d; cbn [kernel_dims offset fst snd] in *; lia.
  - apply taps_sum_full. intros k Hk.
    destruct (Hcov (ws - 1 - k)%nat) as (Hr & Hc & Hcell); [lia|].
    destruct d; cbn [tap offset fst snd] in *;
      (split_and!; [lia..|same_cell Hcell]).
Qed.

(** One iteration of the loop of [check_win]: the test on the kernel of
    direction [d] succeeds exactly when a line in that direction is
    covered. *)
Lemma kernel_test g nr nc ws v d K :
  Np.has_shape g nr nc → (0 < nr)%nat → (0 < ws)%nat →
  Np.has_shape K (kernel_dims d ws).1 (kernel_dims d ws).2 →
  (∀ i j, Np.convolve2d_at (Np.eq_mask g v) K i j = taps_sum (Np.eq_mask g v) d ws i j) →
  Np.any_ge (Np.convolve2d (Np.eq_mask g v) K) (Z.of_nat ws) = true ↔
  ∃ r c, covered g nr nc ws v d r c.
Proof.
  intros Hs Hnr Hws HK Hconv. rewrite any_ge_convolve2d.
  pose proof (eq_mask_shape g nr nc v Hs) as Hm.
  rewrite (shape_nrows _ _ _ Hm), (shape_ncols _ _ _ Hm Hnr).
  rewrite (shape_nrows _ _ _ HK), (shape_ncols _ _ _ HK) by (destruct d; simpl; lia).
  split.
  - intros (i & j & _ & _ & Hge). rewrite Hconv in Hge.
    by eapply taps_to_covered.
  - intros (r & c & Hcov).
    destruct (covered_to_taps g nr nc ws v d r c Hws Hcov) as (i & j & Hi & Hj & Hge).
    exists i, j. by rewrite Hconv.
Qed.

(** [check_win] on a board of positive dimensions. *)
Lemma check_win_streak w g player_id :
  well_formed w g →
  win_kernels (self w) = make_win_kernels (win_streak (self w)) →
  (0 < n_rows (self w))%nat → (0 < win_streak (self w))%nat →
  ∃ has_won : bool,
    check_win w player_id = (Return has_won, w) ∧
    (has_won = true ↔
     has_streak g (n_rows (self w)) (n_columns (self w)) (win_streak (self w)) player_id).
Proof.
  intros [Hb Hs] Hk Hnr Hws. unfold check_win. rewrite Hb, Hk.
  destruct (make_win_kernels_spec (win_streak (self w)))
    as (h & v & d1 & d2 & -> & Hh & Hv & Hd1 & Hd2).
  set (M := Np.eq_mask g player_id). set (ws := win_streak (self w)) in *.
  pose proof (kernel_test g _ _ ws player_id Horizontal h Hs Hnr Hws (proj1 Hh)
                (λ i j, convolve2d_at_h M h ws i j Hh)) as Th.
  pose proof (kernel_test g _ _ ws player_id Vertical v Hs Hnr Hws (proj1 Hv)
                (λ i j, convolve2d_at_v M v ws i j Hv Hws)) as Tv.
  pose proof (kernel_test g _ _ ws player_id DiagDownRight d1 Hs Hnr Hws (proj1 Hd1)
                (λ i j, convolve2d_at_d1 M d1 ws i j Hd1 Hws)) as T1.
  pose proof (kernel_test g _ _ ws player_id DiagDownLeft d2 Hs Hnr Hws (proj1 Hd2)
                (λ i j, convolve2d_at_d2 M d2 ws i j Hd2 Hws)) as T2.
  fold M in Th, Tv, T1, T2. cbn [check_win_loop].
  assert (∀ b : bool, (b = true ↔ has_streak g (n_rows (self w)) (n_columns (self w)) ws player_id)
            → ∃ has_won : bool, (Return b, w) = (Return has_won, w) ∧
                (has_won = true ↔ has_streak g (n_rows (self w)) (n_columns (self w)) ws player_id))
    as Hfin by eauto.
  assert (∀ d, (∃ r c, covered g (n_rows (self w)) (n_columns (self w)) ws player_id d r c)
            → has_streak g (n_rows (self w)) (n_columns (self w)) ws player_id)
    as Hin by (intros d (r & c & Hc); by exists d, r, c).
  destruct (Np.any_ge (Np.convolve2d M h) _) eqn:Eh.
  { apply Hfin. split; [intros _|done]. apply (Hin Horizontal), Th. done. }
  destruct (Np.any_ge (Np.convolve2d M v) _) eqn:Ev.
  { apply Hfin. split; [intros _|done]. apply (Hin Vertical), Tv. done. }
  destruct (Np.any_ge (Np.convolve2d M d1) _) eqn:E1.
  { apply Hfin. split; [intros _|done]. apply (Hin DiagDownRight), T1. done. }
  destruct (Np.any_ge (Np.convolve2d M d2) _) eqn:E2.
  { apply Hfin. split; [intros _|done]. apply (Hin DiagDownLeft), T2. done. }
  apply Hfin. split; [done|]. intros ([] & r & c & Hc); exfalso.
  - assert (false = true) by (apply Th; eauto). done.
  - assert (false = true) by (apply Tv; eauto). done.
  - assert (false = true) by (apply T1; eauto). done.
  - assert (false = true) by (apply T2; eauto). done.
Qed.

End Streaks.

(** ** Reaching the example positions *)

Section Examples.

Lemma well_formed_new nr nc ws : well_formed (new nr nc ws) (Np.zeros nr nc).
Proof.
  split; [|apply zeros_shape].
  unfold board, new, init, alloc. simpl. apply lookup_insert_eq.
Qed.

Lemma reachable_commit w player_id (column : nat) imaginary cols :
  reachable w →
  player_id = 1 ∨ player_id = 2 →
  fst (get_valid_moves w) = Return cols → column ∈ cols →
  reachable (snd (make_move w player_id (Z.of_nat column) imaginary)).
Proof.
  intros Hr Hp Hcols Hc.
  destruct (legal_move_returns w player_id column imaginary cols Hr Hcols Hc) as [w' Hw'].
  rewrite Hw'. simpl. by eapply reachable_move.
Qed.

Lemma reachable_play w moves :
  reachable w → legal_play w moves = true → reachable (play w moves).
Proof.
  revert w. induction moves as [|[p c] moves IH]; intros w Hr Hl; [done|].
  simpl in Hl.
  apply andb_prop in Hl as [Hl Hrest]. apply andb_prop in Hl as [Hl Hcol].
  apply andb_prop in Hl as [Hp Hc]. apply bool_decide_eq_true_1 in Hp, Hc.
  destruct (fst (get_valid_moves w)) as [cols|] eqn:Hcols; [|done].
  apply bool_decide_eq_true_1 in Hcol.
  unfold play. simpl. apply IH; [|done].
  replace c with (Z.of_nat (Z.to_nat c)) by lia.
  by apply (reachable_commit _ _ _ _ cols).
Qed.

Lemma reachable_row5_three : reachable row5_three.
Proof. apply reachable_play; [apply reachable_new|by vm_compute]. Qed.

Lemma reachable_column0_five : reachable column0_five.
Proof. apply reachable_play; [apply reachable_new|by vm_compute]. Qed.

Lemma reachable_column0_full : reachable column0_full.
Proof. apply reachable_play; [apply reachable_new|by vm_compute]. Qed.

Lemma reachable_tiny_full : reachable tiny_full.
Proof. apply reachable_play; [apply reachable_new|by vm_compute]. Qed.

End Examples.

(** ** Column indices outside the board *)

Section ColumnIndex.
Implicit Types (w : World) (g a : Np.ndarray).

(** On a shaped array an access depends on the column index only through
    the position numpy resolves it to. *)
Lemma getitem_axis a nr nc i j1 j2 :
  Np.has_shape a nr nc → Np.axis_index nc j1 = Np.axis_index nc j2 →
  Np.getitem a i j1 = Np.getitem a i j2.
Proof.
  intros Hs Hj. unfold Np.getitem.
  destruct (Np.axis_index (length a) i) as [r|]; [|done]. simpl.
  destruct (a !! r) as [row|] eqn:Hrow; [|done]. simpl.
  destruct (has_shape_row _ _ _ _ _ Hs Hrow) as [-> _]. by rewrite Hj.
Qed.

Lemma setitem_axis a nr nc i j1 j2 v :
  Np.has_shape a nr nc → Np.axis_index nc j1 = Np.axis_index nc j2 →
  Np.setitem a i j1 v = Np.setitem a i j2 v.
Proof.
  intros Hs Hj. unfold Np.setitem.
  destruct (Np.axis_index (length a) i) as [r|]; [|done]. simpl.
  destruct (a !! r) as [row|] eqn:Hrow; [|done]. simpl.
  destruct (has_shape_row _ _ _ _ _ Hs Hrow) as [-> _]. by rewrite Hj.
Qed.

Lemma drop_loop_axis g nr nc n player_id j1 j2 rows :
  Np.has_shape g nr nc → Np.axis_index nc j1 = Np.axis_index nc j2 →
  drop_loop n g player_id j1 rows = drop_loop n g player_id j2 rows.
Proof.
  intros Hs Hj. induction rows as [|row rows IH]; [done|]. simpl.
  rewrite (setitem_axis g nr nc _ j1 j2 _ Hs Hj).
  rewrite (getitem_axis g nr nc _ j1 j2 Hs Hj). by rewrite IH.
Qed.

Lemma make_move_axis w g player_id j1 j2 imaginary :
  well_formed w g →
  Np.axis_index (n_columns (self w)) j1 = Np.axis_index (n_columns (self w)) j2 →
  make_move w player_id j1 imaginary = make_move w player_id j2 imaginary.
Proof.
  intros [Hb Hs] Hj. unfold make_move. unfold board in Hb. rewrite Hb.
  rewrite (getitem_axis g _ _ 0 j1 j2 Hs Hj).
  by rewrite (drop_loop_axis g _ _ _ player_id j1 j2 _ Hs Hj).
Qed.

End ColumnIndex.

(** ** The listed columns are sorted *)

Lemma filter_seq_sorted (P : nat → Prop) `{!∀ x, Decision (P x)} (s n : nat) :
  StronglySorted lt (filter P (seq s n)).
Proof.
  revert s. induction n as [|n IH]; intros s; [constructor|].
  cbn [seq]. rewrite filter_cons.
  assert (Forall (lt s) (filter P (seq (S s) n))) as Hall.
  { apply Forall_forall. intros x Hx.
    apply list_elem_of_filter in Hx as [_ Hx]. apply elem_of_seq in Hx. lia. }
  case_decide; [|apply IH]. apply StronglySorted_cons. split; [done|apply IH].
Qed.

Lemma open_columns_sorted (g : Np.ndarray) (nc : nat) :
  StronglySorted lt (open_columns g nc).
Proof. apply filter_seq_sorted. Qed.

(** An imaginary move with a non-empty mark always changes the stored
    board. *)
Lemma make_move_imaginary_changes_board w g player_id (column : nat) :
  well_formed w g → player_id ≠ 0 →
  (column < n_columns (self w))%nat → Np.cell g 0 column = Some 0 →
  board (snd (make_move w player_id (Z.of_nat column) true)) ≠ board w.
Proof.
  intros Hwf Hp Hc Htop.
  destruct (make_move_open w g player_id (Z.of_nat column) true column Hwf)
    as (r & (Hr & Hempty & _) & Heq); [by apply axis_index_nat|done|].
  rewrite Heq. destruct Hwf as [Hb Hs]. unfold board in *. simpl.
  rewrite lookup_insert_eq, Hb. intros [= Hg].
  assert (Np.cell (set_cell g r column player_id) r column = Some player_id) as Hnew.
  { apply cell_set_cell_eq. rewrite Hempty by lia. eauto. }
  rewrite Hg, Hempty in Hnew by lia. congruence.
Qed.

(** ** The claims *)

(** *** C1 *)

(** Claim C1 (the code departs from it).  A call of [make_move] with
    [imaginary=True] is meant to leave the engine's stored grid as it was.
    It does not: on the fresh default board, [make_move(1, 0, True)] returns
    the reference of the engine's own array, and the stored grid, whose
    cell at row 5, column 0 was empty, holds a Player1 mark there after the
    call. *)
Theorem make_move_imaginary_writes_stored_grid :
  reachable new_default ∧
  (board new_default ≫= λ g, Np.cell g 5 0) = Some 0 ∧
  fst (make_move new_default 1 0 true) = Return (grid (self new_default)) ∧
  (board (snd (make_move new_default 1 0 true)) ≫= λ g, Np.cell g 5 0) = Some 1 ∧
  board (snd (make_move new_default 1 0 true)) ≠ board new_default.
Proof.
  split; [apply reachable_new|]. by vm_compute.
Qed.

(** *** C2 *)

(** Claim C2, as stated, fails: the fresh default board is reachable and
    [check_win(0)] returns true on it (four empty cells in a row). *)
Lemma check_win_empty_id_counterexample :
  reachable new_default ∧
  fst (check_win new_default 0) = Return true ∧
  fst (check_win new_default 0) ≠ Return false.
Proof.
  split; [apply reachable_new|]. by vm_compute.
Qed.

(** Claim C2, amended.  On every reachable board of positive dimensions
    and positive win streak, [check_win] is well defined for every integer
    player id that a float64 holds exactly (magnitude at most 2^53): it
    returns false for such an id other than 0, 1 and 2, and for the Empty
    value 0 it returns true exactly when [win_streak] empty cells lie on
    one in-bounds line of one of the four directions. *)
Theorem check_win_invalid_player w g :
  reachable w → board w = Some g →
  (0 < n_rows (self w))%nat → (0 < n_columns (self w))%nat →
  (0 < win_streak (self w))%nat →
  (∀ player_id, exact_id player_id →
     player_id ≠ 0 → player_id ≠ 1 → player_id ≠ 2 →
     check_win w player_id = (Return false, w)) ∧
  (∃ has_won : bool,
     check_win w 0 = (Return has_won, w) ∧
     (has_won = true ↔
      has_streak g (n_rows (self w)) (n_columns (self w)) (win_streak (self w)) 0)).
Proof.
  intros Hr Hb Hnr _ Hws.
  destruct (reachable_invariant w Hr) as (g' & Hwf & _ & Hvalid & Hk).
  assert (g' = g) as -> by (destruct Hwf as [Hb' _]; congruence).
  split; [|by apply check_win_streak].
  intros p _ H0 H1 H2.
  destruct (check_win_streak w g p Hwf Hk Hnr Hws) as ([] & Heq & Hiff); [|done].
  destruct (proj1 Hiff eq_refl) as (d & r & c & Hcov).
  destruct (Hcov 0%nat Hws) as (_ & _ & Hcell).
  destruct (Hvalid _ _ _ Hcell) as [?|[?|?]]; done.
Qed.

Lemma check_win_invalid_player_witness :
  check_win new_default 3 = (Return false, new_default) ∧
  ∃ has_won : bool,
    check_win new_default 0 = (Return has_won, new_default) ∧
    (has_won = true ↔ has_streak (Np.zeros 6 7) 6 7 4 0).
Proof.
  assert (0 < n_rows (self new_default))%nat as Hnr by (simpl; lia).
  assert (0 < n_columns (self new_default))%nat as Hnc by (simpl; lia).
  assert (0 < win_streak (self new_default))%nat as Hws by (simpl; lia).
  destruct (check_win_invalid_player new_default (Np.zeros 6 7)
              (reachable_new 6 7 4) eq_refl Hnr Hnc Hws) as [Hother Hzero].
  split; [apply Hother; unfold exact_id; lia|exact Hzero].
Defined.

(** *** C3 *)

(** Claim C3 (the code departs from it).  Simulating a move and then
    committing the same move should give two equal boards.  The simulated
    call already writes the engine's grid, so the committed call plays the
    move a second time: in the reachable position where column 0 has one
    free cell the simulated call fills it and the committed call raises
    [ValueError]; on the fresh board the committed call leaves a second
    piece at row 4 that the simulated result did not have. *)
Theorem simulate_then_commit_diverges :
  reachable column0_five ∧
  fst (make_move column0_five 1 0 true) = Return (grid (self column0_five)) ∧
  fst (make_move (snd (make_move column0_five 1 0 true)) 1 0 false) = Raise ValueError ∧
  (board (snd (make_move new_default 1 0 true)) ≫= λ g, Np.cell g 4 0) = Some 0 ∧
  (board (snd (make_move (snd (make_move new_default 1 0 true)) 1 0 false))
     ≫= λ g, Np.cell g 4 0) = Some 1.
Proof.
  split; [apply reachable_column0_five|]. by vm_compute.
Qed.

(** *** C4 *)

(** Claim C4, as stated, fails: the index -1 lies outside 0..n_columns, yet
    [make_move(1, -1)] on the fresh default board raises nothing, acts as
    [make_move(1, 6)] and writes a Player1 mark at row 5, column 6. *)
Lemma make_move_negative_column_counterexample :
  fst (make_move new_default 1 (-1) false) = Return (grid (self new_default)) ∧
  make_move new_default 1 (-1) false = make_move new_default 1 6 false ∧
  (board (snd (make_move new_default 1 (-1) false)) ≫= λ g, Np.cell g 5 6) = Some 1 ∧
  board (snd (make_move new_default 1 (-1) false)) ≠ board new_default.
Proof. by vm_compute. Qed.

(** Claim C4, amended.  For a column index [c] of machine size
    ([-2^63 <= c < 2^63]): when [c >= n_columns] or [c < -n_columns],
    [make_move] surfaces an error at its first access to the grid (numpy's
    [IndexError]) and the world is left as it was; an index with
    [-n_columns <= c < 0] is not rejected: it is redirected, the call
    behaving as the call with column [c + n_columns]. *)
Theorem make_move_column_out_of_range w g player_id column imaginary :
  well_formed w g → machine_index column →
  (column < - Z.of_nat (n_columns (self w)) ∨ Z.of_nat (n_columns (self w)) ≤ column →
     make_move w player_id column imaginary = (Raise IndexError, w)) ∧
  (- Z.of_nat (n_columns (self w)) ≤ column < 0 →
     make_move w player_id column imaginary =
       make_move w player_id (column + Z.of_nat (n_columns (self w))) imaginary).
Proof.
  intros Hwf _. split; intros Hc.
  - apply (make_move_out w g); [done|]. by apply axis_index_out.
  - apply (make_move_axis w g); [done|]. by apply axis_index_wrap.
Qed.

Lemma make_move_column_out_of_range_witness :
  make_move new_default 1 7 false = (Raise IndexError, new_default) ∧
  make_move new_default 1 (-8) true = (Raise IndexError, new_default) ∧
  make_move new_default 1 (-1) false = make_move new_default 1 (-1 + 7) false.
Proof.
  assert (n_columns (self new_default) = 7%nat) as Hnc by reflexivity.
  assert (machine_index 7) as M1 by (unfold machine_index; lia).
  assert (machine_index (-8)) as M2 by (unfold machine_index; lia).
  assert (machine_index (-1)) as M3 by (unfold machine_index; lia).
  split_and!.
  - apply (proj1 (make_move_column_out_of_range new_default (Np.zeros 6 7) 1 7 false
                    (well_formed_new 6 7 4) M1)). rewrite Hnc. lia.
  - apply (proj1 (make_move_column_out_of_range new_default (Np.zeros 6 7) 1 (-8) true
                    (well_formed_new 6 7 4) M2)). rewrite Hnc. lia.
  - apply (proj2 (make_move_column_out_of_range new_default (Np.zeros 6 7) 1 (-1) false
                    (well_formed_new 6 7 4) M3)). rewrite Hnc. lia.
Defined.

(** *** C5 *)

(** Claim C5.  On a board that obeys gravity, a committed move of player
    1 or 2 into a column whose top cell is empty returns normally, writes
    the player's mark into the lowest empty cell of that column (the empty
    cell of largest row index: every cell below it is occupied), and the
    prior and the resulting board differ in exactly that one cell. *)
Theorem make_move_gravity_drop w g player_id (column : nat) :
  well_formed w g →
  gravity g (n_rows (self w)) (n_columns (self w)) →
  player_id = 1 ∨ player_id = 2 →
  (column < n_columns (self w))%nat →
  Np.cell g 0 column = Some 0 →
  ∃ (r : nat) (g' : Np.ndarray) (w' : World),
    make_move w player_id (Z.of_nat column) false = (Return (grid (self w)), w') ∧
    board w' = Some g' ∧ self w' = self w ∧
    (r < n_rows (self w))%nat ∧
    Np.cell g r column = Some 0 ∧
    (∀ r', (r < r' < n_rows (self w))%nat →
           ∃ v, Np.cell g r' column = Some v ∧ v ≠ 0) ∧
    Np.cell g' r column = Some player_id ∧
    (∀ r' c', (r', c') ≠ (r, column) → Np.cell g' r' c' = Np.cell g r' c') ∧
    count_diff g g' = 1%nat.
Proof.
  intros Hwf Hg Hp Hc Htop.
  destruct (make_move_open w g player_id (Z.of_nat column) false column Hwf)
    as (r & Hl & Heq); [by apply axis_index_nat|done|].
  pose proof Hl as (Hr & Hempty & _).
  exists r, (set_cell g r column player_id). eexists. split; [exact Heq|].
  unfold board. simpl. rewrite lookup_insert_eq.
  split_and!; [done|done|done|by apply Hempty| | | |].
  - by apply (lands_lowest g _ _ column r Hg).
  - apply cell_set_cell_eq. rewrite Hempty by lia. eauto.
  - intros r' c' Hne. apply cell_set_cell_ne. congruence.
  - apply (count_diff_set_cell g r column 0); [by apply Hempty|].
    destruct Hp; lia.
Qed.

Lemma make_move_gravity_drop_witness :
  ∃ (g' : Np.ndarray) (w' : World),
    make_move new_default 1 0 false = (Return (grid (self new_default)), w') ∧
    board w' = Some g' ∧
    Np.cell g' 5 0 = Some 1 ∧
    count_diff (Np.zeros 6 7) g' = 1%nat.
Proof.
  assert (0 < n_columns (self new_default))%nat as Hc by (simpl; lia).
  destruct (make_move_gravity_drop new_default (Np.zeros 6 7) 1 0%nat
              (well_formed_new 6 7 4) (gravity_zeros 6 7) (or_introl eq_refl)
              Hc eq_refl)
    as (r & g' & w' & Hm & Hb & _ & _ & _ & _ & Hcell & _ & Hcount).
  exists g', w'. split_and!; [exact Hm|exact Hb| |exact Hcount].
  vm_compute in Hm. injection Hm as <-. vm_compute in Hb. by injection Hb as <-.
Defined.

(** *** C6 *)

(** Claim C6.  On any board, a move into an in-range column whose top
    cell is occupied raises the illegal-move error ([ValueError]) whatever
    [imaginary] is, and the world, hence the stored board, is exactly what
    it was before the call. *)
Theorem make_move_full_column_rejected w g player_id (column : nat) imaginary v :
  well_formed w g →
  (column < n_columns (self w))%nat →
  Np.cell g 0 column = Some v → v ≠ 0 →
  make_move w player_id (Z.of_nat column) imaginary = (Raise ValueError, w).
Proof.
  intros Hwf Hc Htop Hv.
  apply (make_move_full w g _ _ _ column v); [done| |done|done].
  by apply axis_index_nat.
Qed.

Lemma make_move_full_column_rejected_witness :
  make_move column0_full 1 0 true = (Raise ValueError, column0_full) ∧
  make_move column0_full 2 0 false = (Raise ValueError, column0_full).
Proof.
  assert (well_formed column0_full
            [[2; 0; 0; 0; 0; 0; 0]; [1; 0; 0; 0; 0; 0; 0]; [2; 0; 0; 0; 0; 0; 0];
             [1; 0; 0; 0; 0; 0; 0]; [2; 0; 0; 0; 0; 0; 0]; [1; 0; 0; 0; 0; 0; 0]])
    as Hwf.
  { split; [by vm_compute|]. split; [reflexivity|]. repeat constructor. }
  assert (0 < n_columns (self column0_full))%nat as Hc by (vm_compute; lia).
  assert (2 ≠ 0) as Hv by lia.
  split.
  - exact (make_move_full_column_rejected column0_full _ 1 0%nat true 2
             Hwf Hc eq_refl Hv).
  - exact (make_move_full_column_rejected column0_full _ 2 0%nat false 2
             Hwf Hc eq_refl Hv).
Defined.

(** *** C7 *)

(** Claim C7.  On a board of positive dimensions with the kernels built by
    the constructor, [check_win(player)] returns normally, and it returns
    true exactly when some line of [win_streak] cells in one of the four
    directions (horizontal, vertical, diagonal down-right, diagonal
    down-left) lies wholly inside the grid and holds only that player's
    pieces.  With Player1 marks at row 5, columns 0 to 3 of the default
    board, [check_win(1)] is true and [check_win(2)] is false; on the empty
    board, and with only three marks in the row, it is false for both. *)
Theorem check_win_iff_streak :
  (∀ w g player_id,
     well_formed w g →
     win_kernels (self w) = make_win_kernels (win_streak (self w)) →
     (0 < n_rows (self w))%nat → (0 < n_columns (self w))%nat →
     (0 < win_streak (self w))%nat →
     player_id = 1 ∨ player_id = 2 →
     ∃ has_won : bool,
       check_win w player_id = (Return has_won, w) ∧
       (has_won = true ↔
        has_streak g (n_rows (self w)) (n_columns (self w)) (win_streak (self w))
                   player_id)) ∧
  check_win row5_player1 1 = (Return true, row5_player1) ∧
  check_win row5_player1 2 = (Return false, row5_player1) ∧
  check_win new_default 1 = (Return false, new_default) ∧
  check_win new_default 2 = (Return false, new_default) ∧
  check_win row5_three 1 = (Return false, row5_three) ∧
  check_win row5_three 2 = (Return false, row5_three).
Proof.
  split; [|by vm_compute].
  intros w g p Hwf Hk Hnr _ Hws _. by apply check_win_streak.
Qed.

Lemma check_win_iff_streak_witness :
  ∃ has_won : bool,
    check_win row5_player1 1 = (Return has_won, row5_player1) ∧
    (has_won = true ↔
     has_streak [[0; 0; 0; 0; 0; 0; 0]; [0; 0; 0; 0; 0; 0; 0]; [0; 0; 0; 0; 0; 0; 0];
                 [0; 0; 0; 0; 0; 0; 0]; [0; 0; 0; 0; 0; 0; 0]; [1; 1; 1; 1; 0; 0; 0]]
                6 7 4 1).
Proof.
  assert (well_formed row5_player1
            [[0; 0; 0; 0; 0; 0; 0]; [0; 0; 0; 0; 0; 0; 0]; [0; 0; 0; 0; 0; 0; 0];
             [0; 0; 0; 0; 0; 0; 0]; [0; 0; 0; 0; 0; 0; 0]; [1; 1; 1; 1; 0; 0; 0]])
    as Hwf.
  { split; [by vm_compute|]. split; [reflexivity|]. repeat constructor. }
  assert (0 < n_rows (self row5_player1))%nat as Hnr by (vm_compute; lia).
  assert (0 < n_columns (self row5_player1))%nat as Hnc by (vm_compute; lia).
  assert (0 < win_streak (self row5_player1))%nat as Hws by (vm_compute; lia).
  exact (proj1 check_win_iff_streak row5_player1 _ 1 Hwf eq_refl Hnr Hnc Hws
           (or_introl eq_refl)).
Defined.

(** *** C8 *)

(** Claim C8.  On a board with at least one row, [get_valid_moves]
    returns normally and leaves the world untouched; the list it returns
    is the list of the columns of 0..n_columns whose top cell is empty, in
    ascending order: a column is listed exactly when it is in range and its
    top cell is empty, and the list is strictly increasing.  On a board
    reachable by legal play, the list is empty only when every cell of the
    board is occupied. *)
Theorem get_valid_moves_open_columns w g :
  well_formed w g → (0 < n_rows (self w))%nat →
  ∃ cols : list nat,
    get_valid_moves w = (Return cols, w) ∧
    cols = open_columns g (n_columns (self w)) ∧
    (∀ c : nat, c ∈ cols ↔ (c < n_columns (self w))%nat ∧ Np.cell g 0 c = Some 0) ∧
    StronglySorted lt cols ∧
    (reachable w → cols = [] → full g (n_rows (self w)) (n_columns (self w))).
Proof.
  intros Hwf Hnr. exists (open_columns g (n_columns (self w))).
  split_and!; [by apply get_valid_moves_open|done| |apply open_columns_sorted|].
  - intros c. apply elem_of_open_columns.
  - intros Hr Hnil r c Hr' Hc'.
    destruct (reachable_invariant w Hr) as (g' & Hwf' & Hg & _).
    assert (g' = g) as -> by (destruct Hwf, Hwf'; congruence).
    destruct (Hg c Hc') as (k & Hk & Hcol).
    destruct (decide (k = 0)%nat) as [->|Hk0].
    + apply Hcol; lia.
    + exfalso. destruct (Hcol 0%nat Hnr) as [Hz _].
      assert (c ∈ open_columns g (n_columns (self w))) as Hin.
      { apply elem_of_open_columns. split; [done|]. apply Hz. lia. }
      rewrite Hnil in Hin. by apply elem_of_nil in Hin.
Qed.

Lemma get_valid_moves_open_columns_witness :
  get_valid_moves tiny_full = (Return [], tiny_full) ∧ full [[1; 2]] 1 2.
Proof.
  assert (well_formed tiny_full [[1; 2]]) as Hwf.
  { split; [by vm_compute|]. split; [reflexivity|]. repeat constructor. }
  assert (0 < n_rows (self tiny_full))%nat as Hnr by (vm_compute; lia).
  destruct (get_valid_moves_open_columns tiny_full [[1; 2]] Hwf Hnr)
    as (cols & Hget & Hcols & _ & _ & Hfull).
  assert (cols = []) as Hnil by (rewrite Hcols; reflexivity).
  split.
  - rewrite Hget. by rewrite Hnil.
  - exact (Hfull reachable_tiny_full Hnil).
Defined.

(** *** C9 *)

(** Claim C9 (gravity invariant).  After every sequence of legal moves
    from a freshly constructed or reset board (each move by player 1 or 2
    into a column listed by [get_valid_moves]), the engine's grid has the
    configured shape and in every column the occupied cells are a run that
    ends at the bottom row, the cells above it being empty. *)
Theorem legal_play_obeys_gravity w :
  reachable w →
  ∃ g, board w = Some g ∧
       Np.has_shape g (n_rows (self w)) (n_columns (self w)) ∧
       gravity g (n_rows (self w)) (n_columns (self w)).
Proof.
  intros Hr. destruct (reachable_invariant w Hr) as (g & [Hb Hs] & Hg & _).
  by exists g.
Qed.

Lemma legal_play_obeys_gravity_witness :
  ∃ g, board column0_five = Some g ∧
       Np.has_shape g (n_rows (self column0_five)) (n_columns (self column0_five)) ∧
       gravity g (n_rows (self column0_five)) (n_columns (self column0_five)).
Proof. exact (legal_play_obeys_gravity column0_five reachable_column0_five). Defined.

(** *** C10 *)

(** Claim C10.  The player argument is not checked: on any board, a move
    with [player_id = 0] into an in-range column whose top cell is empty
    returns normally, with either value of [imaginary], and leaves every
    cell as it was (it writes 0 into a cell that holds 0), so the number of
    changed cells is 0 and not 1. *)
Theorem make_move_player_zero_changes_nothing w g (column : nat) imaginary :
  well_formed w g →
  (column < n_columns (self w))%nat →
  Np.cell g 0 column = Some 0 →
  ∃ (g' : Np.ndarray) (w' : World),
    make_move w 0 (Z.of_nat column) imaginary = (Return (grid (self w)), w') ∧
    board w' = Some g' ∧
    w' = w ∧ g' = g ∧
    count_diff g g' = 0%nat ∧ count_diff g g' ≠ 1%nat.
Proof.
  intros Hwf Hc Htop.
  destruct (make_move_open w g 0 (Z.of_nat column) imaginary column Hwf)
    as (r & (Hr & Hempty & _) & Heq); [by apply axis_index_nat|done|].
  rewrite (set_cell_id g r column 0) in Heq by (apply Hempty; lia).
  destruct Hwf as [Hb Hs]. unfold board in Hb.
  rewrite insert_id in Heq by done.
  exists g, w. rewrite count_diff_refl.
  split_and!; [|done..]. rewrite Heq. by destruct w.
Qed.

Lemma make_move_player_zero_changes_nothing_witness :
  make_move new_default 0 3 true = (Return (grid (self new_default)), new_default) ∧
  make_move new_default 0 3 false = (Return (grid (self new_default)), new_default).
Proof.
  assert (3 < n_columns (self new_default))%nat as Hc by (simpl; lia).
  split.
  - destruct (make_move_player_zero_changes_nothing new_default (Np.zeros 6 7) 3%nat true
                (well_formed_new 6 7 4) Hc eq_refl) as (g' & w' & Hm & _ & -> & _).
    exact Hm.
  - destruct (make_move_player_zero_changes_nothing new_default (Np.zeros 6 7) 3%nat false
                (well_formed_new 6 7 4) Hc eq_refl) as (g' & w' & Hm & _ & -> & _).
    exact Hm.
Defined.

(** ** Further properties: construction and [reset] *)

Section Construction.
Implicit Types (w : World) (g K : Np.ndarray).

Lemma lookup_tabulate nr nc f (p q : nat) :
  (p < nr)%nat → (q < nc)%nat → Np.cell (tabulate nr nc f) p q = Some (f p q).
Proof.
  intros Hp Hq. unfold Np.cell, tabulate.
  rewrite list_lookup_fmap, lookup_seq_lt by done. simpl.
  by rewrite list_lookup_fmap, lookup_seq_lt by done.
Qed.

Lemma kernel_is_tabulate K kr kc f : kernel_is K kr kc f → K = tabulate kr kc f.
Proof.
  intros [[Hl Hf] Hcell]. apply list_eq. intros p.
  unfold tabulate. rewrite list_lookup_fmap.
  destruct (decide (p < kr)%nat) as [Hp|Hp].
  - rewrite lookup_seq_lt by done. simpl.
    destruct (lookup_lt_is_Some_2 K p) as [row Hrow]; [lia|]. rewrite Hrow. f_equal.
    pose proof (Forall_lookup_1 _ _ _ _ Hf Hrow) as Hlen. simpl in Hlen.
    apply list_eq. intros q. rewrite list_lookup_fmap.
    destruct (decide (q < kc)%nat) as [Hq|Hq].
    + rewrite lookup_seq_lt by done. simpl.
      specialize (Hcell p q Hp Hq). unfold Np.cell in Hcell.
      by rewrite Hrow in Hcell.
    + rewrite lookup_seq_ge by lia. simpl. apply lookup_ge_None. lia.
  - rewrite lookup_seq_ge by lia. simpl. apply lookup_ge_None. lia.
Qed.

Lemma filter_all {A} (P : A → Prop) `{!∀ x, Decision (P x)} (l : list A) :
  Forall P l → filter P l = l.
Proof.
  induction 1 as [|x l Hx _ IH]; [done|].
  by rewrite filter_cons_True, IH.
Qed.

(** A world whose board is empty. *)
Lemma open_columns_zeros nr nc :
  (0 < nr)%nat → open_columns (Np.zeros nr nc) nc = seq 0 nc.
Proof.
  intros Hnr. unfold open_columns.
  apply filter_all, Forall_forall. intros c Hc.
  apply elem_of_seq in Hc. unfold Np.zeros. apply cell_replicate; lia.
Qed.

Lemma no_streak_zeros nr nc ws player_id :
  (0 < ws)%nat → player_id ≠ 0 → ¬ has_streak (Np.zeros nr nc) nr nc ws player_id.
Proof.
  intros Hws Hp (d & r & c & Hcov).
  destruct (Hcov 0%nat Hws) as (Hr & Hc & Hcell).
  unfold Np.zeros in Hcell. rewrite cell_replicate in Hcell by lia. congruence.
Qed.

Lemma empty_board_no_winner w player_id :
  well_formed w (Np.zeros (n_rows (self w)) (n_columns (self w))) →
  win_kernels (self w) = make_win_kernels (win_streak (self w)) →
  (0 < n_rows (self w))%nat → (0 < win_streak (self w))%nat →
  player_id ≠ 0 →
  check_win w player_id = (Return false, w).
Proof.
  intros Hwf Hk Hnr Hws Hp.
  destruct (check_win_streak w _ player_id Hwf Hk Hnr Hws) as ([] & Heq & Hiff); [|done].
  destruct (no_streak_zeros (n_rows (self w)) (n_columns (self w)) _ player_id Hws Hp).
  by apply Hiff.
Qed.

Lemma well_formed_reset w :
  well_formed (reset w) (Np.zeros (n_rows (self w)) (n_columns (self w))).
Proof.
  split; [|apply zeros_shape].
  unfold board, reset, alloc. simpl. apply lookup_insert_eq.
Qed.

End Construction.

(** Property X1.  The constructor's kernel loop builds exactly four
    kernels: a row of [win_streak] ones, a column of [win_streak] ones, the
    [win_streak] x [win_streak] identity pattern and its mirror image (ones
    on the anti-diagonal). *)
Theorem make_win_kernels_tabulated (ws : nat) :
  make_win_kernels ws =
    [tabulate 1 ws (λ _ _, 1);
     tabulate ws 1 (λ _ _, 1);
     tabulate ws ws (λ p q, if decide (p = q) then 1 else 0);
     tabulate ws ws (λ p q, if decide (p + q + 1 = ws)%nat then 1 else 0)].
Proof.
  destruct (make_win_kernels_spec ws) as (h & v & d1 & d2 & -> & Hh & Hv & H1 & H2).
  by rewrite (kernel_is_tabulate _ _ _ _ Hh), (kernel_is_tabulate _ _ _ _ Hv),
    (kernel_is_tabulate _ _ _ _ H1), (kernel_is_tabulate _ _ _ _ H2).
Qed.

(** Property X2.  A freshly constructed engine of positive dimensions and
    positive win streak lists every column [0 .. n_columns - 1] as a valid
    move, and [check_win] is false on it for every non-zero player id that
    a float64 holds exactly (magnitude at most 2^53). *)
Theorem new_engine_open_and_undecided (nr nc ws : nat) (player_id : Z) :
  (0 < nr)%nat → (0 < nc)%nat → (0 < ws)%nat →
  exact_id player_id → player_id ≠ 0 →
  get_valid_moves (new nr nc ws) = (Return (seq 0 nc), new nr nc ws) ∧
  check_win (new nr nc ws) player_id = (Return false, new nr nc ws).
Proof.
  intros Hnr _ Hws _ Hp. split.
  - rewrite (get_valid_moves_open _ _ (well_formed_new nr nc ws)) by done.
    simpl. by rewrite open_columns_zeros.
  - by apply empty_board_no_winner; [apply well_formed_new|..].
Qed.

Lemma new_engine_open_and_undecided_witness :
  get_valid_moves (new 3 4 2) = (Return [0; 1; 2; 3]%nat, new 3 4 2) ∧
  check_win (new 3 4 2) 2 = (Return false, new 3 4 2).
Proof.
  apply (new_engine_open_and_undecided 3 4 2 2); unfold exact_id; lia.
Defined.

(** Property X3.  [reset] keeps the configuration (dimensions, win streak,
    kernels) and makes the board equal to that of a freshly constructed
    engine of the same configuration, whatever was played before; on an
    engine of positive dimensions and win streak, with the kernels of the
    constructor, every column is valid again and [check_win] is false for
    every non-zero player id that a float64 holds exactly (magnitude at
    most 2^53). *)
Theorem reset_like_new w (player_id : Z) :
  win_kernels (self w) = make_win_kernels (win_streak (self w)) →
  (0 < n_rows (self w))%nat → (0 < n_columns (self w))%nat →
  (0 < win_streak (self w))%nat →
  exact_id player_id → player_id ≠ 0 →
  n_rows (self (reset w)) = n_rows (self w) ∧
  n_columns (self (reset w)) = n_columns (self w) ∧
  win_streak (self (reset w)) = win_streak (self w) ∧
  win_kernels (self (reset w)) = win_kernels (self w) ∧
  board (reset w) =
    board (new (n_rows (self w)) (n_columns (self w)) (win_streak (self w))) ∧
  get_valid_moves (reset w) = (Return (seq 0 (n_columns (self w))), reset w) ∧
  check_win (reset w) player_id = (Return false, reset w).
Proof.
  intros Hk Hnr _ Hws _ Hp. pose proof (well_formed_reset w) as Hwf.
  split_and!; try done.
  - destruct Hwf as [-> _]. by destruct (well_formed_new (n_rows (self w))
      (n_columns (self w)) (win_streak (self w))) as [-> _].
  - rewrite (get_valid_moves_open _ _ Hwf) by done.
    change (n_columns (self (reset w))) with (n_columns (self w)).
    by rewrite open_columns_zeros.
  - by apply empty_board_no_winner.
Qed.

Lemma reset_like_new_witness :
  board (reset column0_full) = board new_default ∧
  get_valid_moves (reset column0_full) = (Return (seq 0 7), reset column0_full) ∧
  check_win (reset column0_full) 1 = (Return false, reset column0_full).
Proof.
  assert (0 < n_rows (self column0_full))%nat as Hnr by (vm_compute; lia).
  assert (0 < n_columns (self column0_full))%nat as Hnc by (vm_compute; lia).
  assert (0 < win_streak (self column0_full))%nat as Hws by (vm_compute; lia).
  assert (exact_id 1) as He by (unfold exact_id; lia).
  assert (1 ≠ 0) as Hp by lia.
  destruct (reset_like_new column0_full 1 eq_refl Hnr Hnc Hws He Hp)
    as (_ & _ & _ & _ & Hb & Hv & Hc).
  split_and!; [exact Hb|exact Hv|exact Hc].
Defined.

(** Property X4.  [reset] binds [self.grid] to a newly allocated array
    and writes no existing one: every array that was live before the call,
    in particular the board a previous [make_move] returned, still holds
    what it held. *)
Theorem reset_leaves_old_arrays w (l : loc) (a : Np.ndarray) :
  heap w !! l = Some a →
  heap (reset w) !! l = Some a ∧ grid (self (reset w)) ≠ l.
Proof.
  intros Hl. unfold reset, alloc. simpl.
  assert (fresh (dom (heap w)) ≠ l) as Hne.
  { intros <-. apply (is_fresh (dom (heap w))). apply elem_of_dom. eauto. }
  split; [|done]. by rewrite lookup_insert_ne.
Qed.

Lemma reset_leaves_old_arrays_witness :
  heap (reset column0_full) !! grid (self column0_full) = board column0_full ∧
  grid (self (reset column0_full)) ≠ grid (self column0_full).
Proof.
  destruct (reset_leaves_old_arrays column0_full (grid (self column0_full))
              (default [] (board column0_full))) as [Hh Hne].
  - by vm_compute.
  - split; [|exact Hne]. rewrite Hh. by vm_compute.
Defined.

(** ** Further properties: [make_move] *)

Section MoreMoves.
Implicit Types (w : World) (g a b : Np.ndarray).

Lemma drop_loop_raise nr g player_id column rows e :
  drop_loop nr g player_id column rows = Raise e → e = IndexError.
Proof.
  induction rows as [|row rows IH]; simpl; [done|].
  destruct (Np.setitem g _ column player_id) as [g'|];
    case_bool_decide; try destruct (Np.getitem g _ column) as [v|];
    try case_bool_decide; intros; simplify_eq; auto.
Qed.

(** Reading after writing, on a shaped array. *)
Lemma cell_set_cell a nr nc (r c r' c' : nat) v :
  Np.has_shape a nr nc →
  Np.cell (set_cell a r c v) r' c' =
    if decide ((r, c) = (r', c') ∧ (r < nr)%nat ∧ (c < nc)%nat) then Some v
    else Np.cell a r' c'.
Proof.
  intros Hs. case_decide as Hd.
  - destruct Hd as ([= <- <-] & Hr & Hc).
    apply cell_set_cell_eq. by eapply cell_is_Some.
  - destruct (decide ((r, c) = (r', c'))) as [[= <- <-]|Hne].
    + destruct (Np.cell a r c) as [x|] eqn:Hx.
      * apply (cell_lt _ _ _ _ _ _ Hs) in Hx as [? ?]. by destruct Hd.
      * destruct (Np.cell (set_cell a r c v) r c) as [y|] eqn:Hy; [|done].
        apply (cell_lt _ _ _ _ _ _ (set_cell_shape _ _ _ r c v Hs)) in Hy as [? ?].
        by destruct Hd.
    + by apply cell_set_cell_ne.
Qed.

(** Two arrays of one shape with the same cells are the same array. *)
Lemma ndarray_eq a b nr nc :
  Np.has_shape a nr nc → Np.has_shape b nr nc →
  (∀ r c : nat, Np.cell a r c = Np.cell b r c) → a = b.
Proof.
  intros [Hla Hfa] [Hlb Hfb] Hcell. apply list_eq. intros r.
  destruct (a !! r) as [ra|] eqn:Hra, (b !! r) as [rb|] eqn:Hrb.
  - f_equal. apply list_eq. intros c. specialize (Hcell r c).
    unfold Np.cell in Hcell. by rewrite Hra, Hrb in Hcell.
  - apply lookup_lt_Some in Hra. apply lookup_ge_None in Hrb. lia.
  - apply lookup_lt_Some in Hrb. apply lookup_ge_None in Hra. lia.
  - done.
Qed.

Lemma set_cell_commute a nr nc (r1 c1 r2 c2 : nat) v1 v2 :
  Np.has_shape a nr nc → (r1, c1) ≠ (r2, c2) →
  set_cell (set_cell a r1 c1 v1) r2 c2 v2 = set_cell (set_cell a r2 c2 v2) r1 c1 v1.
Proof.
  intros Hs Hne.
  apply (ndarray_eq _ _ nr nc); [by do 2 apply set_cell_shape..|].
  intros r c.
  rewrite !(cell_set_cell _ nr nc) by (try apply set_cell_shape; done).
  repeat case_decide; try done; destruct_and?; congruence.
Qed.

(** The landing row of a column depends on that column only. *)
Lemma lands_other_column g nr nc (c c' r r' : nat) v :
  Np.has_shape g nr nc → c ≠ c' →
  lands (set_cell g r' c' v) nr c r ↔ lands g nr c r.
Proof.
  intros Hs Hne. unfold lands.
  assert (∀ x, Np.cell (set_cell g r' c' v) x c = Np.cell g x c) as Heq.
  { intros x. apply cell_set_cell_ne. congruence. }
  by setoid_rewrite Heq.
Qed.

Lemma well_formed_after_move w g (r c : nat) v :
  well_formed w g →
  well_formed (mkWorld (<[grid (self w) := set_cell g r c v]> (heap w)) (self w))
              (set_cell g r c v).
Proof.
  intros [Hb Hs]. split; [|by apply set_cell_shape].
  unfold board. simpl. apply lookup_insert_eq.
Qed.

End MoreMoves.

(** Property X5.  For a player id that a float64 holds exactly
    (magnitude at most 2^53) and a column index of machine size, in any
    state of the engine: a call of [make_move] that raises leaves the world
    exactly as it was (nothing is written before the failure), and the
    exception is [ValueError] or [IndexError]; [ValueError] is raised only
    when the top cell of the addressed column is not 0. *)
Theorem make_move_raise_atomic w player_id column imaginary e w' :
  exact_id player_id → machine_index column →
  make_move w player_id column imaginary = (Raise e, w') →
  w' = w ∧
  (e = IndexError ∨
   e = ValueError ∧
   ∃ g top, board w = Some g ∧ Np.getitem g 0 column = Some top ∧ top ≠ 0).
Proof.
  intros _ _. unfold make_move, board.
  destruct (heap w !! grid (self w)) as [g|]; [|intros ?; simplify_eq; auto].
  destruct (Np.getitem g 0 column) as [top|] eqn:Hget; [|intros ?; simplify_eq; auto].
  case_bool_decide as Htop.
  - intros ?; simplify_eq. split; [done|]. right. split; [done|]. by exists g, top.
  - destruct (drop_loop _ _ _ _ _) as [g'|e'] eqn:Hloop; [done|].
    intros ?; simplify_eq. split; [done|]. left. by eapply drop_loop_raise.
Qed.

Lemma make_move_raise_atomic_witness :
  snd (make_move column0_full 1 0 false) = column0_full.
Proof.
  assert (exact_id 1) as He by (unfold exact_id; lia).
  assert (machine_index 0) as Hm by (unfold machine_index; lia).
  destruct (make_move_raise_atomic column0_full 1 0 false ValueError
              (snd (make_move column0_full 1 0 false)) He Hm) as [Hw _].
  - by vm_compute.
  - exact Hw.
Defined.



(** Property X7.  A move with a non-zero player id that a float64 holds
    exactly (magnitude at most 2^53) changes the list of valid moves in its
    own column only: after a move into an open column [column] the list is
    the former list, from which [column] is removed exactly when the cell
    under the top cell was not empty (the piece landed in row 0). *)
Theorem get_valid_moves_after_move w g player_id (column : nat) imaginary :
  well_formed w g → exact_id player_id → player_id ≠ 0 →
  (column < n_columns (self w))%nat → Np.cell g 0 column = Some 0 →
  ∃ cols w',
    get_valid_moves w = (Return cols, w) ∧
    make_move w player_id (Z.of_nat column) imaginary = (Return (grid (self w)), w') ∧
    get_valid_moves w' =
      (Return (filter (λ c, c ≠ column ∨ Np.cell g 1 column = Some 0) cols), w').
Proof.
  intros Hwf _ Hp Hc Htop.
  assert (0 < n_rows (self w))%nat as Hnr
    by (destruct Hwf as [_ Hs]; apply (cell_lt _ _ _ _ _ _ Hs) in Htop; lia).
  destruct (make_move_open w g player_id (Z.of_nat column) imaginary column Hwf)
    as (r & Hl & Heq); [by apply axis_index_nat|done|].
  eexists _, _. split; [by apply get_valid_moves_open|]. split; [exact Heq|].
  pose proof (well_formed_after_move w g r column player_id Hwf) as Hwf'.
  rewrite (get_valid_moves_open _ _ Hwf') by done. simpl.
  f_equal. f_equal. unfold open_columns. rewrite list_filter_filter.
  apply list_filter_iff. intros c.
  destruct Hwf as [_ Hs]. rewrite (cell_set_cell g _ _ _ _ _ _ _ Hs).
  destruct Hl as (Hr & Hempty & Hstop).
  case_decide as Hd.
  - destruct Hd as ([= -> <-] & _ & _). split; [by intros [=]|].
    intros [[?|H1] _]; [done|].
    destruct Hstop as [Hlast|(v & Hv & Hne)].
    + apply (cell_lt _ _ _ _ _ _ Hs) in H1. lia.
    + simpl in Hv. congruence.
  - split; [|by intros [_ ?]]. intros H0. split; [|done].
    destruct (decide (c = column)) as [->|]; [|by left]. right.
    apply Hempty. destruct r; [|lia]. exfalso. apply Hd. by split_and!.
Qed.

Lemma get_valid_moves_after_move_witness :
  ∃ cols w',
    get_valid_moves column0_five = (Return cols, column0_five) ∧
    make_move column0_five 2 0 false = (Return (grid (self column0_five)), w') ∧
    get_valid_moves w' =
      (Return (filter (λ c, c ≠ 0%nat ∨
                            Np.cell (default [] (board column0_five)) 1 0 = Some 0) cols),
       w').
Proof.
  assert (well_formed column0_five (default [] (board column0_five))) as Hwf.
  { split; [by vm_compute|]. split; [reflexivity|]. vm_compute. repeat constructor. }
  assert (exact_id 2) as He by (unfold exact_id; lia).
  assert (2 ≠ 0) as Hp by lia.
  assert (0 < n_columns (self column0_five))%nat as Hc by (vm_compute; lia).
  exact (get_valid_moves_after_move column0_five _ 2 0%nat false Hwf He Hp Hc eq_refl).
Defined.

(** Property X8.  Moves into two different open columns, with player ids
    that a float64 holds exactly (magnitude at most 2^53), commute: played
    in either order they both return normally and leave the same world,
    hence the same board. *)
Theorem make_move_distinct_columns_commute w g p1 p2 (c1 c2 : nat) i1 i2 :
  well_formed w g → exact_id p1 → exact_id p2 → c1 ≠ c2 →
  (c1 < n_columns (self w))%nat → (c2 < n_columns (self w))%nat →
  Np.cell g 0 c1 = Some 0 → Np.cell g 0 c2 = Some 0 →
  ∃ w1 w2 w12,
    make_move w p1 (Z.of_nat c1) i1 = (Return (grid (self w)), w1) ∧
    make_move w p2 (Z.of_nat c2) i2 = (Return (grid (self w)), w2) ∧
    make_move w1 p2 (Z.of_nat c2) i2 = (Return (grid (self w)), w12) ∧
    make_move w2 p1 (Z.of_nat c1) i1 = (Return (grid (self w)), w12).
Proof.
  intros Hwf _ _ Hne Hc1 Hc2 Ht1 Ht2. pose proof Hwf as [_ Hs].
  destruct (make_move_open w g p1 (Z.of_nat c1) i1 c1 Hwf)
    as (r1 & Hl1 & Heq1); [by apply axis_index_nat|done|].
  destruct (make_move_open w g p2 (Z.of_nat c2) i2 c2 Hwf)
    as (r2 & Hl2 & Heq2); [by apply axis_index_nat|done|].
  pose proof (well_formed_after_move w g r1 c1 p1 Hwf) as Hwf1.
  pose proof (well_formed_after_move w g r2 c2 p2 Hwf) as Hwf2.
  destruct (make_move_open _ _ p2 (Z.of_nat c2) i2 c2 Hwf1)
    as (r2' & Hl2' & Heq12); [by apply axis_index_nat| |].
  { rewrite cell_set_cell_ne by congruence. done. }
  destruct (make_move_open _ _ p1 (Z.of_nat c1) i1 c1 Hwf2)
    as (r1' & Hl1' & Heq21); [by apply axis_index_nat| |].
  { rewrite cell_set_cell_ne by congruence. done. }
  simpl in *.
  apply (lands_other_column g _ _ c2 c1 r2' r1 p1 Hs) in Hl2'; [|done].
  apply (lands_other_column g _ _ c1 c2 r1' r2 p2 Hs) in Hl1'; [|done].
  assert (r2' = r2) as -> by (by eapply lands_unique).
  assert (r1' = r1) as -> by (by eapply lands_unique).
  eexists _, _, _. split_and!; [exact Heq1|exact Heq2|exact Heq12|].
  rewrite Heq21. rewrite !insert_insert_eq.
  by rewrite (set_cell_commute g _ _ r1 c1 r2 c2 p1 p2 Hs) by congruence.
Qed.

Lemma make_move_distinct_columns_commute_witness :
  snd (make_move (snd (make_move new_default 1 2 false)) 2 5 false) =
  snd (make_move (snd (make_move new_default 2 5 false)) 1 2 false).
Proof.
  assert (exact_id 1) as He1 by (unfold exact_id; lia).
  assert (exact_id 2) as He2 by (unfold exact_id; lia).
  assert (2 ≠ 5)%nat as Hne by lia.
  assert (2 < n_columns (self new_default))%nat as Hc1 by (simpl; lia).
  assert (5 < n_columns (self new_default))%nat as Hc2 by (simpl; lia).
  destruct (make_move_distinct_columns_commute new_default (Np.zeros 6 7) 1 2
              2%nat 5%nat false false (well_formed_new 6 7 4) He1 He2 Hne Hc1 Hc2
              eq_refl eq_refl)
    as (w1 & w2 & w12 & H1 & H2 & H12 & H21).
  change (Z.of_nat 2) with 2 in *. change (Z.of_nat 5) with 5 in *.
  rewrite H1, H2. simpl. by rewrite H12, H21.
Defined.

(** ** Further properties: filling a column *)

Section Columns.
Implicit Types (w : World) (g : Np.ndarray).

Lemma lands_column_free g nr c k r :
  column_free g nr c k → lands g nr c r → (0 < k)%nat ∧ r = (k - 1)%nat.
Proof.
  intros [Hk Hcol] (Hr & Hempty & Hstop).
  assert (r < k)%nat as Hlt.
  { destruct (decide (r < k)%nat); [done|].
    destruct (Hcol r Hr) as [_ (v & Hv & Hne)]; [lia|].
    rewrite Hempty in Hv by lia. congruence. }
  split; [lia|].
  destruct (decide (r + 1 < k)%nat); [|lia].
  destruct (Hcol (r + 1)%nat) as [Hz _]; [lia|].
  destruct Hstop as [?|(v & Hv & Hne)]; [lia|].
  rewrite Hz in Hv by lia. congruence.
Qed.

Lemma column_free_zeros nr nc c : (c < nc)%nat → column_free (Np.zeros nr nc) nr c nr.
Proof.
  intros Hc. split; [done|]. intros r Hr. split; [|lia].
  intros _. by apply cell_replicate.
Qed.

Lemma drop_pieces_cons w c p players :
  drop_pieces w c (p :: players) =
    drop_pieces (snd (make_move w p (Z.of_nat c) false)) c players.
Proof. done. Qed.

Lemma drop_pieces_column (c : nat) players :
  ∀ w g (k : nat),
    well_formed w g → (c < n_columns (self w))%nat →
    column_free g (n_rows (self w)) c k →
    (length players ≤ k)%nat → Forall (λ p, p ≠ 0) players →
    ∃ g', well_formed (drop_pieces w c players) g' ∧
          self (drop_pieces w c players) = self w ∧
          column_free g' (n_rows (self w)) c (k - length players) ∧
          (∀ (i : nat) p, players !! i = Some p →
                          Np.cell g' (k - 1 - i) c = Some p) ∧
          (∀ r c' : nat, c' ≠ c ∨ (k ≤ r)%nat → Np.cell g' r c' = Np.cell g r c').
Proof.
  induction players as [|p players IH]; intros w g k Hwf Hc Hfree Hlen Hnz.
  - exists g. simpl. rewrite Nat.sub_0_r. split_and!; try done.
  - simpl in Hlen. apply Forall_cons_1 in Hnz as [Hp Hnz].
    pose proof Hwf as [_ Hs].
    assert (Np.cell g 0 c = Some 0) as Htop.
    { destruct Hfree as [Hkn Hcol]. destruct (Hcol 0%nat) as [H0 _]; [lia|].
      apply H0. lia. }
    destruct (make_move_open w g p (Z.of_nat c) false c Hwf)
      as (r & Hl & Heq); [by apply axis_index_nat|done|].
    destruct (lands_column_free _ _ _ _ _ Hfree Hl) as [Hk ->].
    rewrite drop_pieces_cons, Heq. cbn [snd].
    set (w1 := mkWorld _ _).
    destruct (IH w1 (set_cell g (k - 1) c p) (k - 1)%nat) as (g' & Hwf' & Hself & Hfree' & Hcells & Hframe).
    + by apply well_formed_after_move.
    + done.
    + destruct Hfree as [Hkn Hcol]. split; [simpl; lia|]. intros r Hr.
      rewrite (cell_set_cell g _ _ _ _ _ _ _ Hs). case_decide as Hd.
      * destruct Hd as ([= <-] & _). split; [lia|]. by exists p.
      * assert (r ≠ k - 1)%nat by (intros ->; apply Hd; split_and!; [done|lia|done]).
        destruct (Hcol r Hr) as [H1 H2]. split; intros; [apply H1|apply H2]; lia.
    + lia.
    + done.
    + exists g'. split_and!; [done|by rewrite Hself| | |].
      * replace (k - length (p :: players))%nat with (k - 1 - length players)%nat
          by (simpl; lia). done.
      * intros [|i] q Hq; simpl in Hq.
        -- simplify_eq. rewrite Nat.sub_0_r.
           rewrite Hframe by (right; lia).
           apply cell_set_cell_eq. destruct Hfree as [Hkn Hcol].
           destruct (Hcol (k - 1)%nat) as [H0 _]; [lia|].
           rewrite H0 by lia. eauto.
        -- replace (k - 1 - S i)%nat with (k - 1 - 1 - i)%nat by lia. by apply Hcells.
      * intros r c' Hrc. rewrite Hframe by (destruct Hrc; [by left|right; lia]).
        apply cell_set_cell_ne. intros [= <- <-]. destruct Hrc; [done|lia].
Qed.

End Columns.

(** Property X9.  A column with [k] free cells takes exactly [k] more
    pieces: dropping the pieces of [k] players into it, one after the
    other, each with a non-zero id that a float64 holds exactly (magnitude
    at most 2^53), stacks them bottom-up in the order played (the [i]-th
    piece lies at row [k - 1 - i]) and leaves every other column and the
    cells below untouched; after that the column is full and any further
    move into it raises [ValueError].  On a fresh board [k] is [n_rows]. *)
Theorem drop_pieces_fills_column w g (c k : nat) players player_id imaginary :
  well_formed w g → (c < n_columns (self w))%nat →
  column_free g (n_rows (self w)) c k →
  length players = k → (0 < k)%nat →
  Forall exact_id players → Forall (λ p, p ≠ 0) players →
  ∃ g', well_formed (drop_pieces w c players) g' ∧
        (∀ (i : nat) p, players !! i = Some p → Np.cell g' (k - 1 - i) c = Some p) ∧
        (∀ r c' : nat, c' ≠ c ∨ (k ≤ r)%nat → Np.cell g' r c' = Np.cell g r c') ∧
        make_move (drop_pieces w c players) player_id (Z.of_nat c) imaginary =
          (Raise ValueError, drop_pieces w c players).
Proof.
  intros Hwf Hc Hfree Hlen Hk _ Hnz.
  destruct (drop_pieces_column c players w g k Hwf Hc Hfree) as
    (g' & Hwf' & Hself & Hfree' & Hcells & Hframe); [lia|done|].
  exists g'. split_and!; [done..|].
  destruct (lookup_lt_is_Some_2 players (k - 1)%nat) as [p Hp]; [lia|].
  apply (make_move_full_column_rejected _ g' _ _ _ p); [done|by rewrite Hself| |].
  - specialize (Hcells _ _ Hp). by replace (k - 1 - (k - 1))%nat with 0%nat in Hcells by lia.
  - eapply (Forall_lookup_1 _ _ _ _ Hnz Hp).
Qed.

Lemma drop_pieces_fills_column_witness :
  ∃ g', well_formed (drop_pieces (new 3 2 2) 1 [1; 2; 1]) g' ∧
        Np.cell g' 2 1 = Some 1 ∧ Np.cell g' 1 1 = Some 2 ∧ Np.cell g' 0 1 = Some 1 ∧
        make_move (drop_pieces (new 3 2 2) 1 [1; 2; 1]) 2 1 true =
          (Raise ValueError, drop_pieces (new 3 2 2) 1 [1; 2; 1]).
Proof.
  assert (1 < n_columns (self (new 3 2 2)))%nat as Hc by (simpl; lia).
  assert (Forall exact_id [1; 2; 1]) as Hex
    by (repeat constructor; unfold exact_id; lia).
  assert (Forall (λ p, p ≠ 0) [1; 2; 1]) as Hnz by (repeat constructor; lia).
  assert (0 < 3)%nat as Hk by lia.
  destruct (drop_pieces_fills_column (new 3 2 2) (Np.zeros 3 2) 1 3 [1; 2; 1] 2 true
              (well_formed_new 3 2 2) Hc (column_free_zeros 3 2 1 Hc) eq_refl Hk Hex Hnz)
    as (g' & Hwf & Hcells & _ & Hfull).
  exists g'. split_and!; [done| | | |exact Hfull].
  - exact (Hcells 0%nat 1 eq_refl).
  - exact (Hcells 1%nat 2 eq_refl).
  - exact (Hcells 2%nat 1 eq_refl).
Defined.

(** ** Further properties: winning lines and moves *)

Section WinsAndMoves.
Implicit Types (w : World) (g : Np.ndarray) (d : direction).

(** A line of pieces of a non-zero player survives the filling of an
    empty cell. *)
Lemma covered_after_fill g nr nc ws q d (r0 c0 : Z) (r c : nat) v :
  Np.has_shape g nr nc → q ≠ 0 → Np.cell g r c = Some 0 →
  covered g nr nc ws q d r0 c0 →
  covered (set_cell g r c v) nr nc ws q d r0 c0.
Proof.
  intros Hs Hq Hz Hcov k Hk. specialize (Hcov k Hk). cbv zeta in *.
  destruct Hcov as (Hr & Hc & Hcell).
  split; [done|]. split; [done|]. rewrite cell_set_cell_ne; [done|].
  intros [= Hr' Hc']. rewrite <- Hr', <- Hc' in Hcell. congruence.
Qed.

(** A line of pieces of [q] after the move either was there before or
    runs through the cell just filled. *)
Lemma covered_before_fill g nr nc ws q d (r0 c0 : Z) (r c : nat) v :
  Np.has_shape g nr nc →
  covered (set_cell g r c v) nr nc ws q d r0 c0 →
  covered g nr nc ws q d r0 c0 ∨
  ∃ k : nat, (k < ws)%nat ∧
             r0 + Z.of_nat k * (offset d).1 = Z.of_nat r ∧
             c0 + Z.of_nat k * (offset d).2 = Z.of_nat c.
Proof.
  intros Hs Hcov.
  destruct (decide (Exists (λ k : nat,
              r0 + Z.of_nat k * (offset d).1 = Z.of_nat r ∧
              c0 + Z.of_nat k * (offset d).2 = Z.of_nat c) (seq 0 ws))) as [Hex|Hno].
  - right. apply Exists_exists in Hex as (k & Hk & Hpos).
    apply elem_of_seq in Hk. exists k. split; [lia|done].
  - left. intros k Hk. specialize (Hcov k Hk). cbv zeta in *.
    destruct Hcov as (Hr & Hc & Hcell).
    split; [done|]. split; [done|]. rewrite cell_set_cell_ne in Hcell; [done|].
    intros [= Hr' Hc']. apply Hno, Exists_exists. exists k.
    split; [apply elem_of_seq; lia|]. lia.
Qed.

Lemma bool_eq_iff (b1 b2 : bool) (P1 P2 : Prop) :
  (b1 = true ↔ P1) → (b2 = true ↔ P2) → (P1 ↔ P2) → b1 = b2.
Proof. destruct b1, b2; intros H1 H2 H12; try done; intuition congruence. Qed.

End WinsAndMoves.

(** Property X10.  For non-zero player ids [p] and [q] that a float64
    holds exactly (magnitude at most 2^53): a move by [p] into an open
    column never takes a win away and never gives one to somebody else.  If
    [check_win(q)] was true before the move it is true after it, and for
    [q] different from [p] the value of [check_win(q)] is the same before
    and after. *)
Theorem check_win_after_move w g p q (column : nat) imaginary :
  well_formed w g →
  win_kernels (self w) = make_win_kernels (win_streak (self w)) →
  (0 < win_streak (self w))%nat →
  exact_id p → exact_id q → p ≠ 0 → q ≠ 0 →
  (column < n_columns (self w))%nat → Np.cell g 0 column = Some 0 →
  ∃ w' (b b' : bool),
    make_move w p (Z.of_nat column) imaginary = (Return (grid (self w)), w') ∧
    check_win w q = (Return b, w) ∧
    check_win w' q = (Return b', w') ∧
    (b = true → b' = true) ∧
    (q ≠ p → b' = b).
Proof.
  intros Hwf Hk Hws _ _ Hp Hq Hc Htop. pose proof Hwf as [_ Hs].
  assert (0 < n_rows (self w))%nat as Hnr
    by (apply (cell_lt _ _ _ _ _ _ Hs) in Htop; lia).
  destruct (make_move_open w g p (Z.of_nat column) imaginary column Hwf)
    as (r & (Hr & Hempty & _) & Heq); [by apply axis_index_nat|done|].
  pose proof (well_formed_after_move w g r column p Hwf) as Hwf'.
  destruct (check_win_streak w g q Hwf Hk Hnr Hws) as (b & Hb & Hiff).
  destruct (check_win_streak _ _ q Hwf' Hk Hnr Hws) as (b' & Hb' & Hiff').
  simpl in Hiff'.
  eexists _, b, b'. split_and!; [exact Heq|exact Hb|exact Hb'| |].
  - intros Htrue. apply Hiff'. apply Hiff in Htrue as (d & r0 & c0 & Hcov).
    exists d, r0, c0. apply covered_after_fill; [done..|by apply Hempty|done].
  - intros Hqp. apply (bool_eq_iff _ _ _ _ Hiff' Hiff). split.
    + intros (d & r0 & c0 & Hcov). exists d, r0, c0.
      destruct (covered_before_fill _ _ _ _ _ _ _ _ _ _ _ Hs Hcov)
        as [?|(k & Hk' & Hr0 & Hc0)]; [done|].
      destruct (Hcov k Hk') as (_ & _ & Hcell). cbv zeta in Hcell.
      rewrite Hr0, Hc0, !Nat2Z.id in Hcell.
      rewrite cell_set_cell_eq in Hcell by (rewrite Hempty by lia; eauto).
      congruence.
    + intros (d & r0 & c0 & Hcov). exists d, r0, c0.
      apply covered_after_fill; [done..|by apply Hempty|done].
Qed.

Lemma check_win_after_move_witness :
  ∃ w' (b b' : bool),
    make_move row5_player1 2 (Z.of_nat 4) false = (Return (grid (self row5_player1)), w') ∧
    check_win row5_player1 1 = (Return b, row5_player1) ∧
    check_win w' 1 = (Return b', w') ∧
    (b = true → b' = true) ∧ (1 ≠ 2 → b' = b).
Proof.
  assert (well_formed row5_player1 (default [] (board row5_player1))) as Hwf.
  { split; [by vm_compute|]. split; [reflexivity|]. vm_compute. repeat constructor. }
  assert (0 < win_streak (self row5_player1))%nat as Hws by (vm_compute; lia).
  assert (exact_id 2) as Ep by (unfold exact_id; lia).
  assert (exact_id 1) as Eq by (unfold exact_id; lia).
  assert (2 ≠ 0) as Hp by lia. assert (1 ≠ 0) as Hq by lia.
  assert (4 < n_columns (self row5_player1))%nat as Hc by (vm_compute; lia).
  exact (check_win_after_move row5_player1 _ 2 1 4%nat false Hwf eq_refl Hws Ep Eq
           Hp Hq Hc eq_refl).
Defined.

(** Property X11.  A move can only win through the piece it drops: for a
    player id [p] that a float64 holds exactly (magnitude at most 2^53),
    when [check_win(p)] is false before a move of [p] into an open column
    and true after it, some fully covered line of [win_streak] cells of the
    new board runs through the cell where the piece landed. *)
Theorem new_win_through_landing_cell w g p (column : nat) imaginary :
  well_formed w g →
  win_kernels (self w) = make_win_kernels (win_streak (self w)) →
  (0 < win_streak (self w))%nat →
  exact_id p →
  (column < n_columns (self w))%nat → Np.cell g 0 column = Some 0 →
  check_win w p = (Return false, w) →
  ∃ w' g' (r : nat),
    make_move w p (Z.of_nat column) imaginary = (Return (grid (self w)), w') ∧
    board w' = Some g' ∧
    Np.cell g r column = Some 0 ∧ Np.cell g' r column = Some p ∧
    (check_win w' p = (Return true, w') →
     ∃ d (r0 c0 : Z) (k : nat),
       covered g' (n_rows (self w)) (n_columns (self w)) (win_streak (self w)) p d r0 c0 ∧
       (k < win_streak (self w))%nat ∧
       r0 + Z.of_nat k * (offset d).1 = Z.of_nat r ∧
       c0 + Z.of_nat k * (offset d).2 = Z.of_nat column).
Proof.
  intros Hwf Hk Hws _ Hc Htop Hbefore. pose proof Hwf as [_ Hs].
  assert (0 < n_rows (self w))%nat as Hnr
    by (apply (cell_lt _ _ _ _ _ _ Hs) in Htop; lia).
  destruct (make_move_open w g p (Z.of_nat column) imaginary column Hwf)
    as (r & (Hr & Hempty & _) & Heq); [by apply axis_index_nat|done|].
  pose proof (well_formed_after_move w g r column p Hwf) as Hwf'.
  eexists _, (set_cell g r column p), r.
  split_and!; [exact Heq|by destruct Hwf'|by apply Hempty| |].
  { apply cell_set_cell_eq. rewrite Hempty by lia. eauto. }
  intros Hafter.
  destruct (check_win_streak w g p Hwf Hk Hnr Hws) as (b & Hb & Hiff).
  destruct (check_win_streak _ _ p Hwf' Hk Hnr Hws) as (b' & Hb' & Hiff').
  simpl in Hiff'. rewrite Hb in Hbefore. rewrite Hb' in Hafter. simplify_eq.
  destruct (proj1 Hiff' eq_refl) as (d & r0 & c0 & Hcov).
  destruct (covered_before_fill _ _ _ _ _ _ _ _ _ _ _ Hs Hcov)
    as [Hold|(k & Hk' & Hr0 & Hc0)].
  - assert (false = true) by (apply Hiff; by exists d, r0, c0). done.
  - by exists d, r0, c0, k.
Qed.

Lemma new_win_through_landing_cell_witness :
  ∃ w' g' (r : nat),
    make_move row5_three 1 (Z.of_nat 3) false = (Return (grid (self row5_three)), w') ∧
    board w' = Some g' ∧
    Np.cell (default [] (board row5_three)) r 3 = Some 0 ∧ Np.cell g' r 3 = Some 1 ∧
    (check_win w' 1 = (Return true, w') →
     ∃ d (r0 c0 : Z) (k : nat),
       covered g' (n_rows (self row5_three)) (n_columns (self row5_three))
               (win_streak (self row5_three)) 1 d r0 c0 ∧
       (k < win_streak (self row5_three))%nat ∧
       r0 + Z.of_nat k * (offset d).1 = Z.of_nat r ∧
       c0 + Z.of_nat k * (offset d).2 = Z.of_nat 3).
Proof.
  assert (well_formed row5_three (default [] (board row5_three))) as Hwf.
  { split; [by vm_compute|]. split; [reflexivity|]. vm_compute. repeat constructor. }
  assert (0 < win_streak (self row5_three))%nat as Hws by (vm_compute; lia).
  assert (3 < n_columns (self row5_three))%nat as Hc by (vm_compute; lia).
  assert (check_win row5_three 1 = (Return false, row5_three)) as Hno by (by vm_compute).
  assert (exact_id 1) as He by (unfold exact_id; lia).
  exact (new_win_through_landing_cell row5_three _ 1 3%nat false Hwf eq_refl Hws
           He Hc eq_refl Hno).
Defined.

(** Property X12.  The constructor accepts a win streak longer than the
    board; on such an engine nobody can ever win: when [win_streak] exceeds
    both [n_rows] and [n_columns], [check_win] returns false for every
    board and every player id that a float64 holds exactly (magnitude at
    most 2^53). *)
Theorem check_win_streak_too_long w g player_id :
  well_formed w g →
  win_kernels (self w) = make_win_kernels (win_streak (self w)) →
  (0 < n_rows (self w))%nat → (0 < n_columns (self w))%nat →
  (n_rows (self w) < win_streak (self w))%nat →
  (n_columns (self w) < win_streak (self w))%nat →
  exact_id player_id →
  check_win w player_id = (Return false, w).
Proof.
  intros Hwf Hk Hnr Hnc Hr Hc _.
  destruct (check_win_streak w g player_id Hwf Hk Hnr) as ([] & Heq & Hiff);
    [lia| |done].
  destruct (proj1 Hiff eq_refl) as (d & r0 & c0 & Hcov).
  destruct (Hcov 0%nat) as (Hr0 & Hc0 & _); [lia|].
  destruct (Hcov (win_streak (self w) - 1)%nat) as (Hr1 & Hc1 & _); [lia|].
  cbv zeta in *. destruct d; simpl in *; lia.
Qed.

Lemma check_win_streak_too_long_witness :
  check_win (play (new 2 3 4) [(1, 0); (1, 1); (1, 2)]) 1 =
    (Return false, play (new 2 3 4) [(1, 0); (1, 1); (1, 2)]).
Proof.
  apply (check_win_streak_too_long _ [[0; 0; 0]; [1; 1; 1]]).
  - split; [by vm_compute|]. split; [reflexivity|]. repeat constructor.
  - by vm_compute.
  - vm_compute. lia.
  - vm_compute. lia.
  - vm_compute. lia.
  - vm_compute. lia.
  - unfold exact_id. lia.
Defined.

(** Property X13.  The constructor accepts [n_rows = 0]; on such an
    engine every [make_move] raises [IndexError], whatever the column of
    machine size, and [get_valid_moves] raises [IndexError] unless there is
    no column at all, in which case it returns the empty list.  The world
    is left as it was. *)
Theorem zero_rows_engine w g player_id column imaginary :
  well_formed w g → n_rows (self w) = 0%nat → machine_index column →
  make_move w player_id column imaginary = (Raise IndexError, w) ∧
  get_valid_moves w =
    (if decide (n_columns (self w) = 0)%nat then Return [] else Raise IndexError, w).
Proof.
  intros [Hb [Hl _]] Hnr _. rewrite Hnr in Hl. destruct g; [|done]. split.
  - unfold make_move. unfold board in Hb. by rewrite Hb.
  - unfold get_valid_moves. rewrite Hb.
    destruct (n_columns (self w)); [done|]. by rewrite decide_False by lia.
Qed.

Lemma zero_rows_engine_witness :
  make_move (new 0 7 4) 1 0 false = (Raise IndexError, new 0 7 4) ∧
  get_valid_moves (new 0 7 4) = (Raise IndexError, new 0 7 4).
Proof.
  assert (machine_index 0) as Hm by (unfold machine_index; lia).
  exact (zero_rows_engine (new 0 7 4) (Np.zeros 0 7) 1 0 false
           (well_formed_new 0 7 4) eq_refl Hm).
Defined.

(** ** Further properties: [print_grid] *)

Section Printing.
Implicit Types (w : World) (g : Np.ndarray) (row : list Z).

Lemma cells_valid_rows g : cells_valid g ↔ Forall (Forall regular) g.
Proof.
  unfold cells_valid, Np.cell. split.
  - intros Hv. apply Forall_lookup. intros r row Hrow.
    apply Forall_lookup. intros c v Hc. apply (Hv r c). by rewrite Hrow.
  - intros Hf r c v Hc. destruct (g !! r) as [row|] eqn:Hrow; [|done]. simpl in Hc.
    exact (Forall_lookup_1 _ _ _ _ (Forall_lookup_1 _ _ _ _ Hf Hrow) Hc).
Qed.

Lemma getitem_row g nr nc (i j : nat) row :
  Np.has_shape g nr nc → g !! i = Some row → (j < nc)%nat →
  Np.getitem g (Z.of_nat i) (Z.of_nat j) = row !! j.
Proof.
  intros Hs Hrow Hj.
  rewrite (getitem_shape g nr nc i (Z.of_nat j) j Hs) by (by apply axis_index_nat).
  unfold Np.cell. by rewrite Hrow.
Qed.

Lemma print_row_loop_regular g nr nc (i : nat) row :
  Np.has_shape g nr nc → g !! i = Some row → Forall regular row →
  ∀ (n s : nat) acc, (s + n = nc)%nat →
    print_row_loop g i (seq s n) acc = Return (acc ++ (glyph <$> drop s row)).
Proof.
  intros Hs Hrow Hreg. destruct (has_shape_row _ _ _ _ _ Hs Hrow) as [Hlen _].
  induction n as [|n IH]; intros s acc Hn.
  - simpl. rewrite drop_ge by lia. simpl. by rewrite app_nil_r.
  - cbn [seq print_row_loop]. rewrite (getitem_row g nr nc i s row) by (done || lia).
    destruct (lookup_lt_is_Some_2 row s) as [v Hv]; [lia|]. rewrite Hv.
    rewrite (drop_S _ _ _ Hv), fmap_cons, (cons_middle (glyph v)), app_assoc.
    pose proof (Forall_lookup_1 _ _ _ _ Hreg Hv) as [-> | [-> | ->]];
      simpl; apply IH; lia.
Qed.

Lemma print_row_loop_irregular g nr nc (i j : nat) row v :
  Np.has_shape g nr nc → g !! i = Some row →
  row !! j = Some v → ¬ regular v →
  ∀ (n s : nat) acc, (s + n = nc)%nat → (s ≤ j)%nat →
    print_row_loop g i (seq s n) acc = Raise ValueError.
Proof.
  intros Hs Hrow Hj Hv. destruct (has_shape_row _ _ _ _ _ Hs Hrow) as [Hlen _].
  pose proof (lookup_lt_Some _ _ _ Hj) as Hjlt.
  induction n as [|n IH]; intros s acc Hn Hsj; [lia|].
  cbn [seq print_row_loop]. rewrite (getitem_row g nr nc i s row) by (done || lia).
  destruct (lookup_lt_is_Some_2 row s) as [x Hx]; [lia|]. rewrite Hx.
  destruct (decide (s = j)) as [->|Hne].
  - assert (x = v) as -> by congruence. unfold regular in Hv.
    by rewrite !bool_decide_eq_false_2 by tauto.
  - repeat case_bool_decide; try done; apply IH; lia.
Qed.

Lemma render_row_acc row : ([bar] ++ (glyph <$> row)) ++ [bar] = render_row row.
Proof. unfold render_row. by rewrite <- app_assoc. Qed.

Lemma print_rows_loop_regular g nr nc :
  Np.has_shape g nr nc → Forall (Forall regular) g →
  ∀ (n s : nat) out, (s + n = nr)%nat →
    print_rows_loop g nc (seq s n) out = (Return (), out ++ (render_row <$> drop s g)).
Proof.
  intros Hs Hreg. pose proof Hs as [Hlen _].
  induction n as [|n IH]; intros s out Hn.
  - simpl. rewrite drop_ge by lia. simpl. by rewrite app_nil_r.
  - cbn [seq print_rows_loop].
    destruct (lookup_lt_is_Some_2 g s) as [row Hrow]; [lia|].
    rewrite (print_row_loop_regular g nr nc s row Hs Hrow
               (Forall_lookup_1 _ _ _ _ Hreg Hrow) nc 0) by done.
    rewrite drop_0, render_row_acc, IH by lia.
    by rewrite (drop_S _ _ _ Hrow), fmap_cons, <- app_assoc.
Qed.

Lemma print_rows_loop_irregular g nr nc (i j : nat) v :
  Np.has_shape g nr nc → Np.cell g i j = Some v → ¬ regular v →
  Forall (Forall regular) (take i g) →
  ∀ (n s : nat) out, (s + n = nr)%nat → (s ≤ i)%nat →
    print_rows_loop g nc (seq s n) out =
      (Raise ValueError, out ++ (render_row <$> take (i - s) (drop s g))).
Proof.
  intros Hs Hcell Hv Hreg. pose proof Hs as [Hlen _].
  destruct (cell_lt _ _ _ _ _ _ Hs Hcell) as [Hi Hj].
  induction n as [|n IH]; intros s out Hn Hsi; [lia|].
  cbn [seq print_rows_loop].
  destruct (lookup_lt_is_Some_2 g s) as [row Hrow]; [lia|].
  destruct (decide (s = i)) as [->|Hne].
  - unfold Np.cell in Hcell. rewrite Hrow in Hcell. simpl in Hcell.
    rewrite (print_row_loop_irregular g nr nc i j row v Hs Hrow Hcell Hv nc 0) by lia.
    rewrite Nat.sub_diag. simpl. by rewrite app_nil_r.
  - assert (Forall regular row) as Hrow_reg.
    { apply (Forall_lookup_1 _ _ s _ Hreg). rewrite lookup_take_lt by lia. done. }
    rewrite (print_row_loop_regular g nr nc s row Hs Hrow Hrow_reg nc 0) by done.
    rewrite drop_0, render_row_acc, IH by lia.
    rewrite (drop_S _ _ _ Hrow).
    replace (i - s)%nat with (S (i - S s)) by lia. simpl.
    by rewrite <- app_assoc.
Qed.

Lemma parse_render_row row :
  Forall regular row → parse_row (render_row row) = Some row.
Proof.
  intros Hreg. unfold parse_row, render_row. cbn [app drop]. rewrite drop_0.
  rewrite take_app_length'
    by (cbn [length]; rewrite length_app; cbn [length]; lia).
  apply mapM_fmap_Forall_Some.
  eapply Forall_impl; [exact Hreg|]. by intros v [-> | [-> | ->]].
Qed.

End Printing.

(** Property X14.  On a board whose cells all hold 0, 1 or 2,
    [print_grid] returns normally after printing [n_rows + 4] strings: a
    line of [n_columns + 2] underscores, one line per row (a bar, one glyph
    per cell - blank, disc or ring - and a bar), a line of [n_columns + 2]
    blocks, the column labels and a newline.  The label line is the fixed
    text " 0123456 " whatever [n_columns] is. *)
Theorem print_grid_regular w g :
  well_formed w g → cells_valid g →
  print_grid w =
    (Return (),
     [replicate (n_columns (self w) + 2) underscore] ++
     (render_row <$> g) ++
     [replicate (n_columns (self w) + 2) block; str_of " 0123456 "; [newline]]).
Proof.
  intros [Hb Hs] Hv. apply cells_valid_rows in Hv.
  unfold print_grid. rewrite Hb. simpl default.
  rewrite (print_rows_loop_regular g _ _ Hs Hv _ 0) by done.
  rewrite drop_0. by rewrite <- app_assoc.
Qed.

Lemma print_grid_regular_witness :
  fst (print_grid column0_five) = Return ().
Proof.
  destruct (reachable_invariant _ reachable_column0_five) as (g & Hwf & _ & Hv & _).
  by rewrite (print_grid_regular column0_five g Hwf Hv).
Defined.

(** Property X15.  The printout determines the board: on a board whose
    cells all hold 0, 1 or 2, reading the glyphs of the [n_rows] printed
    row lines back gives exactly the engine's grid. *)
Theorem print_grid_round_trip w g :
  well_formed w g → cells_valid g →
  parse_grid (n_rows (self w)) (snd (print_grid w)) = Some g.
Proof.
  intros Hwf Hv. pose proof Hwf as [Hb [Hlen Hf]].
  pose proof (proj1 (cells_valid_rows g) Hv) as Hreg.
  unfold print_grid. rewrite Hb. simpl default.
  rewrite (print_rows_loop_regular g _ _ (conj Hlen Hf) Hreg _ 0) by done.
  rewrite drop_0. unfold parse_grid. cbn [snd].
  rewrite <- app_assoc. cbn [app drop]. rewrite drop_0.
  rewrite take_app_length' by (by rewrite length_fmap).
  apply mapM_fmap_Forall_Some.
  eapply Forall_impl; [exact Hreg|]. intros row. apply parse_render_row.
Qed.

Lemma print_grid_round_trip_witness :
  parse_grid (n_rows (self column0_five)) (snd (print_grid column0_five)) =
    board column0_five.
Proof.
  destruct (reachable_invariant _ reachable_column0_five) as (g & Hwf & _ & Hv & _).
  rewrite (print_grid_round_trip column0_five g Hwf Hv). by destruct Hwf as [-> _].
Defined.

(** Property X16.  [print_grid] fails loudly on an irregular cell, after
    partial output: when row [i] is the first row holding a value other
    than 0, 1 and 2 (such a value gets there through [make_move], which
    does not check [player_id]), [print_grid] raises [ValueError] having
    printed the top line and the [i] rows above, and nothing else. *)
Theorem print_grid_irregular w g (i j : nat) v :
  well_formed w g →
  Np.cell g i j = Some v → v ≠ 0 → v ≠ 1 → v ≠ 2 →
  (∀ (i' j' : nat) v', (i' < i)%nat → Np.cell g i' j' = Some v' →
                       v' = 0 ∨ v' = 1 ∨ v' = 2) →
  print_grid w =
    (Raise ValueError,
     [replicate (n_columns (self w) + 2) underscore] ++ (render_row <$> take i g)).
Proof.
  intros [Hb Hs] Hcell H0 H1 H2 Habove.
  assert (Forall (Forall regular) (take i g)) as Hreg.
  { apply Forall_lookup. intros r row Hrow. apply Forall_lookup. intros c x Hx.
    apply lookup_take_Some in Hrow as [Hrow Hr].
    apply (Habove r c x Hr). unfold Np.cell. by rewrite Hrow. }
  unfold print_grid. rewrite Hb. simpl default.
  rewrite (print_rows_loop_irregular g _ _ i j v Hs Hcell) by
    (first [done | lia | unfold regular; lia]).
  by rewrite Nat.sub_0_r, drop_0.
Qed.

Lemma print_grid_irregular_witness :
  fst (print_grid (snd (make_move new_default 3 0 false))) = Raise ValueError ∧
  length (snd (print_grid (snd (make_move new_default 3 0 false)))) = 6%nat.
Proof.
  assert (well_formed (snd (make_move new_default 3 0 false))
            (set_cell (Np.zeros 6 7) 5 0 3)) as Hwf.
  { split; [by vm_compute|]. split; [reflexivity|]. vm_compute. repeat constructor. }
  assert (3 ≠ 0) as H0 by lia. assert (3 ≠ 1) as H1 by lia. assert (3 ≠ 2) as H2 by lia.
  rewrite (print_grid_irregular _ _ 5 0 3 Hwf eq_refl H0 H1 H2).
  - by vm_compute.
  - intros i' j' v' Hi' Hc. left.
    destruct i' as [|[|[|[|[|i']]]]]; [| | | | |lia];
      destruct j' as [|[|[|[|[|[|[|j']]]]]]]; vm_compute in Hc; congruence.
Defined.

(** ** Further properties: the wrapper [Connect4Environment] *)

(** Property X17.  The wrapper can neither advance nor look ahead: its
    calls of [make_move] omit the column, so [step] raises [TypeError] for
    every action, and [get_successors] raises [TypeError] as soon as one
    column is open; only on a board without an open column does it return,
    with the empty list.  Neither call changes the engine. *)
Theorem wrapper_calls_raise w g action :
  well_formed w g → (0 < n_rows (self w))%nat →
  step w action = (EnvRaise TypeError, w) ∧
  get_successors w =
    (if decide (open_columns g (n_columns (self w)) = [])
     then EnvReturn [] else EnvRaise TypeError, w).
Proof.
  intros Hwf Hnr. split; [done|].
  unfold get_successors. rewrite (get_valid_moves_open w g Hwf Hnr).
  by destruct (open_columns g (n_columns (self w))).
Qed.

Lemma wrapper_calls_raise_witness :
  step new_default 3 = (EnvRaise TypeError, new_default) ∧
  get_successors new_default = (EnvRaise TypeError, new_default) ∧
  get_successors tiny_full = (EnvReturn [], tiny_full).
Proof.
  assert (0 < n_rows (self new_default))%nat as Hnr by (simpl; lia).
  assert (0 < n_rows (self tiny_full))%nat as Hnr' by (vm_compute; lia).
  assert (well_formed tiny_full [[1; 2]]) as Hwf.
  { split; [by vm_compute|]. split; [reflexivity|]. repeat constructor. }
  destruct (wrapper_calls_raise new_default (Np.zeros 6 7) 3 (well_formed_new 6 7 4) Hnr)
    as [Hstep Hsucc].
  destruct (wrapper_calls_raise tiny_full [[1; 2]] 3 Hwf Hnr') as [_ Hfull].
  split_and!; [exact Hstep|exact Hsucc|exact Hfull].
Defined.
